(** * The leistrap component/event substrate of [bundle.js]

    A shallow embedding of the channel bus [lsEmitter] and of the component
    tree ([BaseElement], [create], [SetOptions], the hook registry and the
    indexed lookup registry) of [src/server/public/js/bundle.js], and the
    properties of the specification settled against it; then the utilities
    of the same file ([rangeList], [splitData], [loopObject],
    [inverseObject], [copyObject], [toCamelKey]), [addTo], and further
    properties of the bus and of the components, read off the code.

    Modelling conventions.
    - A JS object used as a dictionary ([channels], [inWaitChannel],
      [contentMap], [eventMap], [eventListeners], [leisElementMap], the
      [EVENTS] table) is a [gmap] of its own properties.  That is all the
      code sees of it as long as its names are plain ([plain_name],
      [plain_object]): not a member of [Object.prototype], which every
      object inherits, and not ["indexOf"], by which [has] tells an array
      from an object.  The statements about such dictionaries say so in
      their hypotheses ([regular], [plain_component], [plain_world]).
    - The order in which [Object.keys] and [for .. in] go through an
      object is not kept in a [gmap]; [map_to_list] stands for it, and what
      is stated of an enumeration holds of every order.
    - Exceptions do not roll back: every operation returns the state reached
      when it completed or threw, next to its completion.
    - [setTimeout] is a queue of timers ordered by due time, first in first
      out among equal due times; the clock only advances when a timer fires.
    - User callbacks (channel listeners of a stand-alone bus, result
      callbacks, hooks, lifecycle listeners, DOM listeners) are opaque and
      do not call back into the bus or the components: a call is recorded
      in a log.  A channel listener may hand a value to [event.send] while
      it runs, and it returns, throws or leaves [exe] waiting at its
      [await] ([listener_ends]); a result callback may throw
      ([callback_throws]).  The statements about dispatches that need
      listeners that return and callbacks that do not throw say so
      ([synchronous], [harmless]).
    - The document refuses to append a node into itself or into a node
      that it holds; [append] is modelled where it is accepted
      ([can_append], [unrendered_detached]). *)

From stdpp Require Import gmap strings list fin_maps sorting.

Set Default Proof Using "Type".

(** ** Error codes *)

(** The [code] of an [EventEmitterError], [UniqueType] for the error class
    that [DisplayError] raises, [LeisError] likewise, [TypeError] for the
    faults of the JS runtime (a property read on [null] or [undefined], a
    call of a non-function), [RangeError] for an exhausted call stack and
    [NotFoundError] for [removeChild] on a node that is not a child. *)
Inductive code :=
| INVALID_CHANNEL_NAME
| EVENT_DESTROYED
| NON_WRITABLE_CHANNEL
| CHANNEL_NOT_FOUND
| NON_REMOVABLE_CHANNEL
| UniqueType
| LeisError
| TypeError
| RangeError
| NotFoundError.

Global Instance code_eq_dec : EqDecision code.
Proof. solve_decision. Defined.

(** What a call returns. *)
Inductive retval :=
| r_undefined
| r_bool (b : bool)
| r_keys (l : list string).

(** How a call completes: a plain function returns or throws; an [async]
    function returns a promise that is fulfilled or rejected. *)
Inductive completion :=
| Return (v : retval)
| Throw (e : code)
| Fulfilled
| Rejected (e : code).

(** ** Timers *)

(** [setTimeout(f, delay)] at time [now]: the timer is placed behind every
    timer that is due no later than it. *)
Fixpoint schedule {T : Type} (due : nat) (t : T) (q : list (nat * T)) : list (nat * T) :=
  match q with
  | [] => [(due, t)]
  | (d, x) :: q' =>
      if decide (d ≤ due) then (d, x) :: schedule due t q' else (due, t) :: (d, x) :: q'
  end.

Definition schedule_all {T : Type} (due : nat) (ts : list T) (q : list (nat * T)) : list (nat * T) :=
  foldl (λ q t, schedule due t q) q ts.

(** ** Channel names *)

(** A string is the list of the bytes of its UTF-8 encoding. *)
Definition bytes (codes : list nat) : string :=
  foldr (λ n s, String (Ascii.ascii_of_nat n) s) EmptyString codes.

(** What [String.prototype.trim] removes: the white space and the line
    terminators of the language, U+0009 to U+000D, U+0020, U+00A0, U+1680,
    U+2000 to U+200A, U+2028, U+2029, U+202F, U+205F, U+3000 and U+FEFF. *)
Definition white_space : list string :=
  bytes <$> [ [9]; [10]; [11]; [12]; [13]; [32]; [194; 160]; [225; 154; 128];
              [226; 128; 128]; [226; 128; 129]; [226; 128; 130]; [226; 128; 131];
              [226; 128; 132]; [226; 128; 133]; [226; 128; 134]; [226; 128; 135];
              [226; 128; 136]; [226; 128; 137]; [226; 128; 138];
              [226; 128; 168]; [226; 128; 169]; [226; 128; 175]; [226; 129; 159];
              [227; 128; 128]; [239; 187; 191] ].

(** [s] without the prefix [p], if it starts with [p]. *)
Fixpoint strip_prefix (p s : string) : option string :=
  match p, s with
  | EmptyString, _ => Some s
  | String a p', String b s' => if decide (a = b) then strip_prefix p' s' else None
  | String _ _, EmptyString => None
  end.

(** [s] without the first of the [marks] it starts with. *)
Definition strip_first (marks : list string) (s : string) : option string :=
  head (omap (λ p, strip_prefix p s) marks).

(** The leading [marks] are removed, one at each of at most [rounds]
    rounds. *)
Fixpoint strip_leading (marks : list string) (rounds : nat) (s : string) : string :=
  match rounds with
  | 0 => s
  | S rounds' =>
      match strip_first marks s with
      | Some rest => strip_leading marks rounds' rest
      | None => s
      end
  end.

Definition ltrim (s : string) : string :=
  strip_leading white_space (String.length s) s.

(** The same from the end: the bytes of a character of UTF-8 that end a
    string are not the end of another character. *)
Definition rtrim (s : string) : string :=
  let r := String.rev s in
  String.rev (strip_leading (String.rev <$> white_space) (String.length r) r).

(** [String.prototype.trim]. *)
Definition trim (s : string) : string := rtrim (ltrim s).

(** [validateChannelName]: the name is typed as a string here, so the test
    is [!channel || channel.trim() === ""]. *)
Definition validateChannelName (channel : string) : option code :=
  if decide (channel = EmptyString) then Some INVALID_CHANNEL_NAME
  else if decide (trim channel = EmptyString) then Some INVALID_CHANNEL_NAME
  else None.

(** ** Objects used as dictionaries *)

(** The members of [Object.prototype]: an object literal inherits them, so
    that [obj[name]] is not [undefined] for these names even when [obj] has
    no such property of its own, and [obj["__proto__"] = v] creates no
    property. *)
Definition Object_prototype : list string :=
  ["constructor"; "hasOwnProperty"; "isPrototypeOf"; "propertyIsEnumerable";
   "toLocaleString"; "toString"; "valueOf"; "__proto__";
   "__defineGetter__"; "__defineSetter__"; "__lookupGetter__"; "__lookupSetter__"].

(** A name under which a dictionary reads, writes, tests and deletes own
    properties only.  ["indexOf"] is left out with the inherited names: an
    object that has a property of that name is taken for an array by
    [has]. *)
Definition plain_name (name : string) : bool :=
  bool_decide (name ∉ "indexOf" :: Object_prototype).

(** A dictionary whose own properties all have such names; the [gmap] of
    its own properties then tells all that the code can see of it. *)
Definition plain_object {X : Type} (obj : gmap string X) : bool :=
  forallb plain_name (map_to_list obj).*1.

(** [has(prop, obj)] on a plain dictionary: [obj.indexOf] is [undefined],
    and [obj.hasOwnProperty] is the one of [Object.prototype]. *)
Definition has {X : Type} (prop : string) (obj : gmap string X) : bool :=
  bool_decide (is_Some (obj !! prop)).

(** ** The channel bus [lsEmitter] *)

(** Who sits in a slot of the [EVENTS] table: the function [lsEmitter]
    put there, or [checkState] once [clear] has overwritten the slot. *)
Inductive slot := own_function | checkState_function.

Global Instance slot_eq_dec : EqDecision slot.
Proof. solve_decision. Defined.

(** How the call of a listener ends, as [await] sees it. *)
Inductive ending := returns | throws | pends.

Section lsEmitter.

(** [L]: channel listeners; [CB]: result callbacks given to [invoke];
    [A]: arguments; [V]: values handed to [event.send]. *)
Context {L CB A V : Type}.

(** What a listener hands to [event.send] while it runs with these
    arguments; [None] when it does not call [send]. *)
Variable listener_sends : L → list A → option V.

(** How the call of a listener ends for [await]: the listener has returned
    (a value that is no promise, or a promise that is fulfilled within the
    turn), it has thrown (or what it had for a listener was no function, or
    its promise is rejected), or its promise is still pending when the turn
    ends. *)
Variable listener_ends : L → list A → ending.

(** Whether a result callback throws when it is called with this value
    (also: what was given for a callback is not a function). *)
Variable callback_throws : CB → option V → bool.

(** [d.channel] of a sent value [d], when it has such a property. *)
Variable data_channel : V → option string.

Record channel := Channel {
  listener : L;
  removable : bool;
  writable : bool
}.

(** The closure [exe] that [invoke] creates: it captures the channel name,
    the result callback and the arguments. *)
Record exe := Exe {
  exe_channel : string;
  exe_listener : option CB;
  exe_args : list A
}.

(** The variables closed over by one [lsEmitter] instance.  [inWaitChannel]
    holds the thunks [() => obj.after(1, exe)], each represented by its
    [exe]. *)
Record bus := Bus {
  channels : gmap string channel;
  inWaitChannel : gmap string (list exe);
  data : option V;
  isDestroyed : bool;
  EVENTS : gmap string slot
}.

(** What an operation leaves behind: the bus, the completion, and the
    closures it handed to [obj.after(1, _)], in call order. *)
Record reply := Reply {
  reply_bus : bus;
  reply_completion : completion;
  reply_after : list exe
}.

Definition new_EVENTS : gmap string slot :=
  list_to_map
    [("invoke", own_function); ("handle", own_function);
     ("removeEvent", own_function); ("removeChannel", own_function);
     ("hasEvent", own_function); ("eventsList", own_function);
     ("clear", own_function)].

(** [lsEmitter(obj)]: a fresh instance. *)
Definition lsEmitter : bus :=
  Bus ∅ ∅ None false new_EVENTS.

Definition set_channels (f : gmap string channel → gmap string channel) (b : bus) : bus :=
  Bus (f (channels b)) (inWaitChannel b) (data b) (isDestroyed b) (EVENTS b).

Definition set_inWaitChannel (f : gmap string (list exe) → gmap string (list exe)) (b : bus) : bus :=
  Bus (channels b) (f (inWaitChannel b)) (data b) (isDestroyed b) (EVENTS b).

Definition set_data (d : option V) (b : bus) : bus :=
  Bus (channels b) (inWaitChannel b) d (isDestroyed b) (EVENTS b).

(** [checkState]. *)
Definition checkState (b : bus) : option code :=
  if isDestroyed b then Some EVENT_DESTROYED else None.

(** The bodies of the methods, as they run on plain names (the name given
    and the names in [channels] and [inWaitChannel], see [regular]): then
    [has] is a test for an own property, [channels[channel]] and
    [inWaitChannel[channel]] are [undefined] unless there is such a
    property, and an assignment creates one. *)

(** The body of [invoke]; an [async] function, so a throw is a rejection.
    On a destroyed instance [inWaitChannel] is [null] and the queueing
    branch faults. *)
Definition invoke_body (channel : string) (cb : option CB) (args : list A) (b : bus) : reply :=
  match validateChannelName channel with
  | Some e => Reply b (Rejected e) []
  | None =>
      let exe := Exe channel cb args in
      if negb (isDestroyed b) && has channel (channels b) then
        Reply b Fulfilled [exe]
      else if isDestroyed b then
        Reply b (Rejected TypeError) []
      else
        let queue := default [] (inWaitChannel b !! channel) in
        Reply (set_inWaitChannel <[channel := queue ++ [exe]]> b) Fulfilled []
  end.

(** The writes of [handle]: the queue of the name is deleted, the channel
    is defined. *)
Definition handled (channel : string) (l : L) (rm wr : bool) (b : bus) : bus :=
  set_channels <[channel := Channel l rm wr]> (set_inWaitChannel (delete channel) b).

(** The body of [handle]; the thunks of the queue run before the queue is
    deleted. *)
Definition handle_body (channel : string) (l : L) (rm wr : bool) (b : bus) : reply :=
  match checkState b with
  | Some e => Reply b (Rejected e) []
  | None =>
  match validateChannelName channel with
  | Some e => Reply b (Rejected e) []
  | None =>
      if has channel (channels b)
         && negb (from_option writable true (channels b !! channel)) then
        Reply b (Rejected NON_WRITABLE_CHANNEL) []
      else
        let drained := default [] (inWaitChannel b !! channel) in
        Reply (handled channel l rm wr b) Fulfilled drained
  end end.

(** The body of [removeChannel], which is also [removeEvent]. *)
Definition removeChannel_body (channel : string) (b : bus) : reply :=
  match checkState b with
  | Some e => Reply b (Throw e) []
  | None =>
  match validateChannelName channel with
  | Some e => Reply b (Throw e) []
  | None =>
  match channels b !! channel with
  | None => Reply b (Throw CHANNEL_NOT_FOUND) []
  | Some c =>
      if negb (removable c) then Reply b (Throw NON_REMOVABLE_CHANNEL) []
      else
        let b1 := set_channels (delete channel) b in
        let b2 := set_inWaitChannel (delete channel) b1 in
        let b3 :=
          match data b2 with
          | Some d => if decide (data_channel d = Some channel) then set_data None b2 else b2
          | None => b2
          end in
        Reply b3 (Return r_undefined) []
  end end end.

(** The body of [clear]: every slot of [EVENTS] is overwritten with
    [checkState], the queries included. *)
Definition clear_body (b : bus) : reply :=
  match checkState b with
  | Some e => Reply b (Throw e) []
  | None =>
      Reply (Bus ∅ ∅ None true ((λ _, checkState_function) <$> EVENTS b))
            (Return (r_bool true)) []
  end.

(** The bodies of [eventsList] and [hasEvent]; on a destroyed instance
    [channels] is [null]. *)
Definition eventsList_body (b : bus) : reply :=
  if isDestroyed b then Reply b (Throw TypeError) []
  else Reply b (Return (r_keys (map_to_list (channels b)).*1)) [].

Definition hasEvent_body (channel : string) (b : bus) : reply :=
  if isDestroyed b then Reply b (Throw TypeError) []
  else Reply b (Return (r_bool (has channel (channels b)))) [].

(** [checkState] called as a method, whatever the arguments. *)
Definition checkState_body (b : bus) : reply :=
  match checkState b with
  | Some e => Reply b (Throw e) []
  | None => Reply b (Return r_undefined) []
  end.

(** A call [bus.meth(...)]: whatever sits in the slot runs. *)
Definition method (meth : string) (body : bus → reply) (b : bus) : reply :=
  match EVENTS b !! meth with
  | Some own_function => body b
  | Some checkState_function => checkState_body b
  | None => Reply b (Throw TypeError) []
  end.

Definition invoke (channel : string) (cb : option CB) (args : list A) : bus → reply :=
  method "invoke" (invoke_body channel cb args).

Definition handle (channel : string) (l : L) (rm wr : bool) : bus → reply :=
  method "handle" (handle_body channel l rm wr).

Definition removeEvent (channel : string) : bus → reply :=
  method "removeEvent" (removeChannel_body channel).

Definition removeChannel (channel : string) : bus → reply :=
  method "removeChannel" (removeChannel_body channel).

Definition hasEvent (channel : string) : bus → reply :=
  method "hasEvent" (hasEvent_body channel).

Definition eventsList : bus → reply :=
  method "eventsList" eventsList_body.

Definition clear : bus → reply :=
  method "clear" clear_body.

(** The closure [exe], in its three statements.  [exe_target]: the listener
    that the first [if] calls, if any (for a plain name, [channels[channel]]
    is the channel of that name or [undefined]). *)
Definition exe_target (e : exe) (b : bus) : option L :=
  if isDestroyed b then None else listener <$> channels b !! exe_channel e.

(** The listener runs: [event.send(d)] stores [d] in [data]. *)
Definition exe_listener_run (l : L) (e : exe) (b : bus) : bus :=
  match listener_sends l (exe_args e) with
  | Some d => set_data (Some d) b
  | None => b
  end.

(** [if (!isDestroyed && listener) listener(data)]: the callback and its
    argument. *)
Definition exe_result (e : exe) (b : bus) : option (CB * option V) :=
  if isDestroyed b then None else (λ cb, (cb, data b)) <$> exe_listener e.

(** [data = null]. *)
Definition exe_reset (b : bus) : bus := set_data None b.

(** ** A bus on its own, with its timers *)

Inductive call :=
| called_listener (channel : string) (l : L) (args : list A)
| called_callback (channel : string) (cb : CB) (d : option V).

Record system := System {
  sys_bus : bus;
  sys_timers : list (nat * exe);
  sys_clock : nat;
  sys_log : list call
}.

(** An operation of the bus in the system: the closures handed to
    [obj.after(1, exe)] become timers due one tick from now. *)
Definition apply_reply (r : reply) (s : system) : system :=
  System (reply_bus r)
         (schedule_all (sys_clock s + 1) (reply_after r) (sys_timers s))
         (sys_clock s) (sys_log s).

Definition sys_invoke (channel : string) (cb : option CB) (args : list A) (s : system) : system :=
  apply_reply (invoke channel cb args (sys_bus s)) s.

Definition sys_handle (channel : string) (l : L) (rm wr : bool) (s : system) : system :=
  apply_reply (handle channel l rm wr (sys_bus s)) s.

(** The two statements of [exe] behind the [await]: the result callback is
    called; when it throws, [data = null] is not reached. *)
Definition exe_rest (e : exe) (b : bus) : bus * list call :=
  match exe_result e b with
  | Some (cb, d) =>
      (if callback_throws cb d then b else exe_reset b,
       [called_callback (exe_channel e) cb d])
  | None => (exe_reset b, [])
  end.

(** One run of [exe] at the bus, in the turn of its timer: the calls it
    makes, and the bus after.  When the listener throws, [exe] ends there;
    when its promise is pending, [exe] waits, and the rest is not run by a
    timer. *)
Definition run_exe (e : exe) (b : bus) : bus * list call :=
  match exe_target e b with
  | Some l =>
      let b1 := exe_listener_run l e b in
      let c1 := called_listener (exe_channel e) l (exe_args e) in
      match listener_ends l (exe_args e) with
      | returns => let '(b2, c2) := exe_rest e b1 in (b2, c1 :: c2)
      | throws | pends => (b1, [c1])
      end
  | None => exe_rest e b
  end.

(** The next timer fires. *)
Definition fire (s : system) : option system :=
  match sys_timers s with
  | [] => None
  | (due, e) :: rest =>
      let '(b, calls) := run_exe e (sys_bus s) in
      Some (System b rest (max (sys_clock s) due) (sys_log s ++ calls))
  end.

(** Timers fire until none is left, at most [fuel] of them. *)
Fixpoint run (fuel : nat) (s : system) : system :=
  match fuel with
  | 0 => s
  | S fuel' => match fire s with Some s' => run fuel' s' | None => s end
  end.

(** The two configurations of an instance: as [lsEmitter] made it, and
    after [clear]. *)
Definition active (b : bus) : Prop :=
  isDestroyed b = false ∧ EVENTS b = new_EVENTS.

Definition destroyed (b : bus) : Prop :=
  isDestroyed b = true ∧ EVENTS b = (λ _, checkState_function) <$> new_EVENTS.

(** The two dictionaries of an instance are plain. *)
Definition regular (b : bus) : bool :=
  plain_object (channels b) && plain_object (inWaitChannel b).

(** Every listener returns, and no result callback throws. *)
Definition synchronous : Prop := ∀ l args, listener_ends l args = returns.
Definition harmless : Prop := ∀ cb d, callback_throws cb d = false.

(** The calls of a log that belong to the dispatches of one channel. *)
Definition call_channel (c : call) : string :=
  match c with
  | called_listener n _ _ => n
  | called_callback n _ _ => n
  end.

Definition calls_on (n : string) (cs : list call) : list call :=
  filter (λ c, call_channel c = n) cs.

(** The calls of one dispatch that finds the listener [l]: [l] with the
    arguments, then the result callback, if any, with what [l] sent. *)
Definition dispatch_calls (l : L) (e : exe) : list call :=
  called_listener (exe_channel e) l (exe_args e) ::
  match exe_listener e with
  | Some cb => [called_callback (exe_channel e) cb (listener_sends l (exe_args e))]
  | None => []
  end.

End lsEmitter.

Arguments channel : clear implicits.
Arguments exe : clear implicits.
Arguments bus : clear implicits.
Arguments reply : clear implicits.
Arguments call : clear implicits.
Arguments system : clear implicits.

(** ** The component tree *)

Module leistrap.

(** Object identity of a [BaseElement]; its [key] is a property. *)
Definition ref := nat.

(** A user function: its identity and its [name] property. *)
Record fn := Fn { fn_id : nat; fn_name : string }.

Global Instance fn_eq_dec : EqDecision fn.
Proof. solve_decision. Defined.

(** An entry of a hook list: a function, or something that is not. *)
Inductive hook := hook_function (f : fn) | hook_value.

(** The closure [callback] that [addEvent] creates around [copyListener];
    every call of [addEvent] creates a new one. *)
Record callback := Callback {
  callback_id : nat;
  copyListener : fn;
  callback_element : ref
}.

Global Instance callback_eq_dec : EqDecision callback.
Proof. solve_decision. Defined.

(** The rendering surface [_conf], as far as the component tree uses it:
    its [id], its parent node (named by the component that owns that node)
    and its event listeners (type, callback, capture flag).  [append] is
    modelled by its effect on [parentNode], for a node that the document
    accepts: one that does not hold the node it is appended to (see
    [can_append] below). *)
Record node := Node {
  node_id : string;
  parentNode : option ref;
  node_listeners : list (string * callback * bool)
}.

(** The properties of a [BaseElement] that its methods read and write
    ([state.visible], the per-component bus [event] and [once] itself are
    left out; [indexName] is [data.indexName]). *)
Record BaseElement := Element {
  _conf : node;
  key : string;
  content : list ref;
  contentMap : gmap string ref;
  rendered : bool;
  parent : option ref;
  eventMap : gmap string (gmap string callback);
  indexName : option string;
  eventListeners : gmap string (list fn)
}.

(** The argument of [add], [remove], [getObjectByIndexName]: an index
    name, a component, or [null]. *)
Inductive target := by_name (s : string) | by_object (r : ref) | by_null.

(** The callbacks handed to [getObjectByIndexName]. *)
Inductive continuation :=
| k_add (this : ref)          (* (e) => this.add(e), in add *)
| k_add_to (element : ref)    (* parent => parent.add(element), in SetOptions and addTo *)
| k_destroy.                  (* child => child.destroy(), in remove *)

Abbreviation registry := (bus ref continuation unit ref).
Abbreviation dispatch := (exe continuation unit).

(** The closures given to [setTimeout]. *)
Inductive task :=
| t_exe (e : dispatch)
| t_lifecycle (name : string) (item : fn) (element : ref) (argv : list target)
| t_destroy (this : ref)
| t_release (this : ref).

(** The reaction of the setter of [data.id] to the fulfilled promise. *)
Inductive microtask :=
| then_indexName (this : ref) (value : string).

Inductive event :=
| hook_called (name : string) (f : fn) (element : ref)
| lifecycle_called (name : string) (item : fn) (element : ref) (argv : list target)
| uncaught (e : code)
| unhandled_rejection (e : code).

(** The module state of [leistrap], the heap of components and the task
    queues of the host.  A component whose properties were all deleted is
    absent from [heap]. *)
Record world := World {
  heap : gmap ref BaseElement;
  next_ref : ref;
  next_callback : nat;
  leisElementMap : gmap string ref;
  indexedElementEvent : registry;
  useInit : list hook;
  useOption : list hook;
  useRender : list hook;
  timers : list (nat * task);
  microtasks : list microtask;
  clock : nat;
  log : list event
}.

Definition set_heap (f : gmap ref BaseElement → gmap ref BaseElement) (w : world) : world :=
  World (f (heap w)) (next_ref w) (next_callback w) (leisElementMap w)
        (indexedElementEvent w) (useInit w) (useOption w) (useRender w)
        (timers w) (microtasks w) (clock w) (log w).

Definition set_next_ref (n : ref) (w : world) : world :=
  World (heap w) n (next_callback w) (leisElementMap w)
        (indexedElementEvent w) (useInit w) (useOption w) (useRender w)
        (timers w) (microtasks w) (clock w) (log w).

Definition set_next_callback (n : nat) (w : world) : world :=
  World (heap w) (next_ref w) n (leisElementMap w)
        (indexedElementEvent w) (useInit w) (useOption w) (useRender w)
        (timers w) (microtasks w) (clock w) (log w).

Definition set_leisElementMap (f : gmap string ref → gmap string ref) (w : world) : world :=
  World (heap w) (next_ref w) (next_callback w) (f (leisElementMap w))
        (indexedElementEvent w) (useInit w) (useOption w) (useRender w)
        (timers w) (microtasks w) (clock w) (log w).

Definition set_indexedElementEvent (b : registry) (w : world) : world :=
  World (heap w) (next_ref w) (next_callback w) (leisElementMap w)
        b (useInit w) (useOption w) (useRender w)
        (timers w) (microtasks w) (clock w) (log w).

Definition set_timers (f : list (nat * task) → list (nat * task)) (w : world) : world :=
  World (heap w) (next_ref w) (next_callback w) (leisElementMap w)
        (indexedElementEvent w) (useInit w) (useOption w) (useRender w)
        (f (timers w)) (microtasks w) (clock w) (log w).

Definition set_microtasks (f : list microtask → list microtask) (w : world) : world :=
  World (heap w) (next_ref w) (next_callback w) (leisElementMap w)
        (indexedElementEvent w) (useInit w) (useOption w) (useRender w)
        (timers w) (f (microtasks w)) (clock w) (log w).

Definition set_clock (t : nat) (w : world) : world :=
  World (heap w) (next_ref w) (next_callback w) (leisElementMap w)
        (indexedElementEvent w) (useInit w) (useOption w) (useRender w)
        (timers w) (microtasks w) t (log w).

Definition emit (es : list event) (w : world) : world :=
  World (heap w) (next_ref w) (next_callback w) (leisElementMap w)
        (indexedElementEvent w) (useInit w) (useOption w) (useRender w)
        (timers w) (microtasks w) (clock w) (log w ++ es).

(** [setTimeout(t, delay)]. *)
Definition setTimeout (t : task) (delay : nat) (w : world) : world :=
  set_timers (schedule (clock w + delay) t) w.

Definition set_conf (f : node → node) (c : BaseElement) : BaseElement :=
  Element (f (_conf c)) (key c) (content c) (contentMap c) (rendered c)
          (parent c) (eventMap c) (indexName c) (eventListeners c).

Definition set_content (l : list ref) (c : BaseElement) : BaseElement :=
  Element (_conf c) (key c) l (contentMap c) (rendered c)
          (parent c) (eventMap c) (indexName c) (eventListeners c).

Definition set_contentMap (f : gmap string ref → gmap string ref) (c : BaseElement) : BaseElement :=
  Element (_conf c) (key c) (content c) (f (contentMap c)) (rendered c)
          (parent c) (eventMap c) (indexName c) (eventListeners c).

Definition set_rendered (b : bool) (c : BaseElement) : BaseElement :=
  Element (_conf c) (key c) (content c) (contentMap c) b
          (parent c) (eventMap c) (indexName c) (eventListeners c).

Definition set_parent (p : option ref) (c : BaseElement) : BaseElement :=
  Element (_conf c) (key c) (content c) (contentMap c) (rendered c)
          p (eventMap c) (indexName c) (eventListeners c).

Definition set_eventMap (f : gmap string (gmap string callback) → gmap string (gmap string callback))
    (c : BaseElement) : BaseElement :=
  Element (_conf c) (key c) (content c) (contentMap c) (rendered c)
          (parent c) (f (eventMap c)) (indexName c) (eventListeners c).

Definition set_indexName (n : option string) (c : BaseElement) : BaseElement :=
  Element (_conf c) (key c) (content c) (contentMap c) (rendered c)
          (parent c) (eventMap c) n (eventListeners c).


Definition set_node_id (s : string) (n : node) : node :=
  Node s (parentNode n) (node_listeners n).

Definition set_parentNode (p : option ref) (n : node) : node :=
  Node (node_id n) p (node_listeners n).

Definition set_node_listeners (f : list (string * callback * bool) → list (string * callback * bool))
    (n : node) : node :=
  Node (node_id n) (parentNode n) (f (node_listeners n)).

(** A write to a property of the component [r]. *)
Definition update (r : ref) (f : BaseElement → BaseElement) (w : world) : world :=
  set_heap (alter f r) w.

(** How a synchronous piece of code ends: normally with a value, or by a
    throw; either way in the world it has reached. *)
Inductive outcome (T : Type) :=
| done (w : world) (v : T)
| threw (w : world) (e : code).
Arguments done {T} w v.
Arguments threw {T} w e.

Definition bind {T U : Type} (m : outcome T) (k : world → T → outcome U) : outcome U :=
  match m with
  | done w v => k w v
  | threw w e => threw w e
  end.

Definition world_of {T : Type} (m : outcome T) : world :=
  match m with done w _ => w | threw w _ => w end.


(** The two hosts' functions closed over by the registry: its listeners
    are [e => e.send(this.element)], and a component has no [channel]
    property. *)
Definition sends (l : ref) (_ : list unit) : option ref := Some l.
Definition no_channel (_ : ref) : option string := None.

(** An operation of the registry, seen from the module: the closures it
    handed to [obj.after(1, _)] become timers; a throw propagates, a
    rejected promise is nobody's to catch. *)
Definition registry_call (r : reply ref continuation unit ref) (w : world) : outcome unit :=
  let w1 := set_indexedElementEvent (reply_bus r) w in
  let w2 := set_timers (schedule_all (clock w + 1) (t_exe <$> reply_after r)) w1 in
  match reply_completion r with
  | Return _ | Fulfilled => done w2 tt
  | Throw e => threw w2 e
  | Rejected e => done (emit [unhandled_rejection e] w2) tt
  end.

(** [indexedElementEvent.removeEvent(id)]. *)
Definition registry_removeEvent (id : string) (w : world) : outcome unit :=
  registry_call (removeEvent no_channel id (indexedElementEvent w)) w.

(** [getObjectByIndexName(indexName, true, clb)]. *)
Definition getObjectByIndexName (indexName : target) (clb : continuation) (w : world) : outcome target :=
  match indexName with
  | by_name s =>
      bind (registry_call (invoke s (Some clb) [] (indexedElementEvent w)) w)
           (λ w' _, done w' indexName)
  | _ => done w indexName
  end.

(** [hooks.callHook(name, DisplayError, element)]. *)
Definition callHook (name : string) (hooks : list hook) (element : ref) (w : world) : outcome unit :=
  foldl (λ acc h,
           bind acc (λ w' _,
             match h with
             | hook_function f => done (emit [hook_called name f element] w') tt
             | hook_value => threw w' LeisError
             end))
        (done w tt) hooks.

(** [handleAllEvent(eventName, this.eventListeners, this, timeout, ...argv)];
    a [timeout] of [0] stands for an omitted one. *)
Definition handleAllEvent (eventName : string) (this : ref) (timeout : nat)
    (argv : list target) (w : world) : outcome unit :=
  match heap w !! this with
  | None => threw w TypeError
  | Some c =>
      match eventListeners c !! eventName with
      | None => done w tt
      | Some items =>
          if decide (timeout = 0) then
            done (emit ((λ item, lifecycle_called eventName item this argv) <$> items) w) tt
          else
            done (set_timers
                    (schedule_all (clock w + timeout)
                       ((λ item, t_lifecycle eventName item this argv) <$> items)) w) tt
      end
  end.


(** One round of the loop of [render] over [this.content]; [rec] is
    [child.render()]. *)
Definition render_child (rec : ref → world → outcome ref) (this child : ref) (w : world) : outcome unit :=
  match heap w !! child with
  | None => threw w TypeError
  | Some ch =>
      match parent ch with
      | None => threw w TypeError
      | Some p =>
          match heap w !! this with
          | None =>
              if decide (heap w !! p = None) then threw w TypeError else done w tt
          | Some c =>
              if decide (key <$> heap w !! p = Some (key c)) then
                let w1 := update this (set_contentMap <[key ch := child]>) w in
                bind (rec child w1) (λ w2 rv,
                  done (update rv (set_conf (set_parentNode (Some this))) w2) tt)
              else done w tt
          end
      end
  end.

(** [render()], with [depth] frames of call stack left. *)
Fixpoint render_at (depth : nat) (this : ref) (w : world) : outcome ref :=
  match depth with
  | 0 => threw w RangeError
  | S depth' =>
      match heap w !! this with
      | None => threw w TypeError
      | Some c =>
          if rendered c then done w this
          else
            bind (foldl (λ acc child, bind acc (λ w' _, render_child (render_at depth') this child w'))
                        (done w tt) (content c))
              (λ w1 _,
            bind (callHook "useRender" (useRender w1) this w1)
              (λ w2 _,
            let w3 := update this (λ c', set_rendered true (set_conf (set_node_id (key c')) c')) w2 in
            bind (handleAllEvent "render" this 0 [] w3)
              (λ w4 _, done w4 this)))
      end
  end.

Section methods.

(** The depth of the call stack. *)
Variable stack : nat.

Definition render : ref → world → outcome ref := render_at stack.

(** [add(elementObject)]. *)
Definition add (this : ref) (elementObject : target) (w : world) : outcome ref :=
  bind (getObjectByIndexName elementObject (k_add this) w) (λ w1 element,
  bind (handleAllEvent "add" this 10 [element] w1) (λ w2 _,
  match element with
  | by_object el =>
      match heap w2 !! el with
      | None => threw w2 TypeError
      | Some e =>
          let w3 := update el (set_parent (Some this)) w2 in
          let w4 := update this (set_contentMap <[key e := el]>) w3 in
          bind (render el w4) (λ w5 rv,
          let w6 := update rv (set_conf (set_parentNode (Some this))) w5 in
          match heap w6 !! this with
          | None => threw w6 TypeError
          | Some c => done (update this (set_content (content c ++ [el])) w6) this
          end)
      end
  | _ => done w2 this
  end)).

(** [destroy()]: all the work is deferred. *)
Definition destroy (this : ref) (w : world) : outcome ref :=
  done (setTimeout (t_destroy this) 100 w) this.


(** The callback that [destroy] gives to [setTimeout]. *)
Definition destroy_callback (this : ref) (w : world) : outcome unit :=
  bind (handleAllEvent "destroy" this 0 [] w) (λ w1 _,
  match heap w1 !! this with
  | None => threw w1 TypeError
  | Some c =>
      bind (match indexName c with
            | Some id =>
                if decide (id = EmptyString) then done w1 tt
                else registry_removeEvent id w1
            | None => done w1 tt
            end) (λ w2 _,
      let w3 := set_leisElementMap (delete (key c)) w2 in
      match parent c with
      | None => threw w3 TypeError
      | Some p =>
          match heap w3 !! p with
          | None => threw w3 TypeError
          | Some pc =>
              if has (key c) (contentMap pc) then
                let remaining := delete (key c) (contentMap pc) in
                let w4 := update p (λ pc', set_content (map_to_list remaining).*2
                                             (set_contentMap (λ _, remaining) pc')) w3 in
                if decide (parentNode (_conf c) = Some p) then
                  let w5 := update this (set_conf (set_parentNode None)) w4 in
                  done (setTimeout (t_release this) 1000 w5) tt
                else threw w4 NotFoundError
              else done w3 tt
          end
      end)
  end).

(** The inner callback of [destroy]: every property of [this] is deleted. *)
Definition release_callback (this : ref) (w : world) : outcome unit :=
  done (set_heap (delete this) w) tt.

(** The setter of [data.id]. *)
Definition set_id (this : ref) (value : string) (w : world) : outcome unit :=
  match heap w !! this with
  | None => threw w TypeError
  | Some _ =>
      let r := handle value this true false (indexedElementEvent w) in
      bind (registry_call r w) (λ w1 _,
        match reply_completion r with
        | Fulfilled => done (set_microtasks (λ q, q ++ [then_indexName this value]) w1) tt
        | _ => done w1 tt
        end)
  end.

(** [addEvent(eventType, listener, eventName, options)].  [listener] is
    [None] when it is not a function; [rnd] is what [generateId(3, 8)]
    returns when it is consulted. *)
Definition addEvent (this : ref) (eventType : string) (listener : option fn)
    (eventName : option string) (capture : bool) (rnd : string) (w : world) : outcome ref :=
  match listener with
  | None => done w this
  | Some f =>
      match heap w !! this with
      | None => threw w TypeError
      | Some c =>
          let w1 :=
            if has eventType (eventMap c) then w
            else update this (set_eventMap <[eventType := ∅]>) w in
          let derived := if decide (fn_name f = EmptyString) then rnd else fn_name f in
          let name :=
            match eventName with
            | Some s => if decide (s = EmptyString) then derived else s
            | None => derived
            end in
          let registered := default ∅ (eventMap c !! eventType) in
          if has name registered then threw w1 UniqueType
          else
            let cb := Callback (next_callback w1) f this in
            let w2 := set_next_callback (S (next_callback w1)) w1 in
            let w3 := update this (set_eventMap <[eventType := <[name := cb]> registered]>) w2 in
            let w4 := update this (set_conf (set_node_listeners
                                     (λ l, l ++ [(eventType, cb, capture)]))) w3 in
            done w4 this
      end
  end.

(** [removeEvent(eventType, eventName, options)]. *)
Definition removeEvent (this : ref) (eventType eventName : string) (capture : bool)
    (w : world) : outcome ref :=
  if decide (eventType = EmptyString) then done w this
  else if decide (eventName = EmptyString) then done w this
  else
    match heap w !! this with
    | None => threw w TypeError
    | Some c =>
        match eventMap c !! eventType with
        | None => done w this
        | Some registered =>
            match registered !! eventName with
            | None => done w this
            | Some cb =>
                let w1 := update this (set_conf (set_node_listeners
                            (filter (λ x, x ≠ (eventType, cb, capture))))) w in
                done (update this (set_eventMap <[eventType := delete eventName registered]>) w1) this
            end
        end
    end.

(** [new BaseElement(element)] for a new node; [k] is what
    [generateId(5, 10)] returns. *)
Definition new_BaseElement (k : string) (w : world) : outcome ref :=
  let this := next_ref w in
  let fresh := Element (Node EmptyString None []) k [] ∅ false None ∅ None ∅ in
  let w1 := set_next_ref (S this) (set_heap <[this := fresh]> w) in
  bind (callHook "useInit" (useInit w1) this w1) (λ w2 _, done w2 this).

(** A key [on<Type>[$name[$opts]]] of the options whose value is a
    function, split by [SetOptions]; [on_rnd] is what [generateId(3, 8)]
    returns if [addEvent] consults it. *)
Record on_key := On {
  on_type : string;
  on_value : fn;
  on_name : option string;
  on_capture : bool;
  on_rnd : string
}.

(** The options that concern the component tree: the event keys, [content],
    [parent] and [data.id].  The keys that are written through to the node
    ([text], [autoClick], attributes, styles) are left out.  The array
    given as [content] is stored as it is: [opt_content] is what it holds
    at the call, and a component that shares its array with another is
    outside what [content] tells (see [but_content]). *)
Record options := Options {
  opt_events : list on_key;
  opt_content : option (list ref);
  opt_parent : option target;
  opt_id : option string
}.

(** [SetOptions(element, options, getObjectByIndexName)].  Its last
    statement, a timer that empties the options object two seconds later,
    touches no component and is left out, and so is the timer of [create]
    that drops the reference to the options. *)
Definition SetOptions (element : ref) (o : options) (w : world) : outcome unit :=
  bind (foldl (λ acc k,
                 bind acc (λ w' _,
                 bind (addEvent element (on_type k) (Some (on_value k)) (on_name k)
                                (on_capture k) (on_rnd k) w')
                      (λ w'' _, done w'' tt)))
              (done w tt) (opt_events o)) (λ w1 _,
  let w2 :=
    match opt_content o with
    | Some items =>
        foldl (λ w' item, update item (set_parent (Some element)) w')
              (update element (set_content items) w1) items
    | None => w1
    end in
  bind (match opt_parent o with
        | Some (by_name s) =>
            if decide (s = EmptyString) then done w2 tt
            else bind (getObjectByIndexName (by_name s) (k_add_to element) w2)
                      (λ w' _, done w' tt)
        | Some (by_object p) => bind (add p (by_object element) w2) (λ w' _, done w' tt)
        | Some by_null | None => done w2 tt
        end) (λ w3 _,
  match opt_id o with
  | Some id => if decide (id = EmptyString) then done w3 tt else set_id element id w3
  | None => done w3 tt
  end)).

(** [create(TagName, options)]. *)
Definition create (k : string) (o : options) (w : world) : outcome ref :=
  bind (new_BaseElement k w) (λ w1 element,
  bind (SetOptions element o w1) (λ w2 _,
  bind (callHook "useOption" (useOption w2) element w2) (λ w3 _,
  done (set_leisElementMap <[k := element]> w3) element))).

(** What a continuation does with the value that the registry hands it. *)
Definition resume (clb : continuation) (d : option ref) (w : world) : outcome unit :=
  match clb, d with
  | k_add this, Some e => bind (add this (by_object e) w) (λ w' _, done w' tt)
  | k_add this, None => bind (add this by_null w) (λ w' _, done w' tt)
  | k_add_to element, Some p => bind (add p (by_object element) w) (λ w' _, done w' tt)
  | k_destroy, Some child => bind (destroy child w) (λ w' _, done w' tt)
  | k_add_to _, None | k_destroy, None => threw w TypeError
  end.

(** The closure [exe] of the registry, run by its timer. *)
Definition exe_callback (e : dispatch) (w : world) : outcome unit :=
  let b := indexedElementEvent w in
  let b1 :=
    match exe_target e b with
    | Some l => exe_listener_run sends l e b
    | None => b
    end in
  let w1 := set_indexedElementEvent b1 w in
  bind (match exe_result e b1 with
        | Some (clb, d) => resume clb d w1
        | None => done w1 tt
        end)
       (λ w2 _, done (set_indexedElementEvent (exe_reset (indexedElementEvent w2)) w2) tt).

Definition run_microtask (m : microtask) (w : world) : world :=
  match m with
  | then_indexName this value => update this (set_indexName (Some value)) w
  end.

(** The microtask checkpoint. *)
Definition drain (w : world) : world :=
  foldl (λ w' m, run_microtask m w') (set_microtasks (λ _, []) w) (microtasks w).

Definition run_task (t : task) (w : world) : world :=
  match t with
  | t_exe e =>
      match exe_callback e w with
      | done w' _ => w'
      | threw w' err => emit [unhandled_rejection err] w'
      end
  | t_lifecycle name item element argv =>
      emit [lifecycle_called name item element argv] w
  | t_destroy this =>
      match destroy_callback this w with
      | done w' _ => w'
      | threw w' err => emit [uncaught err] w'
      end
  | t_release this => world_of (release_callback this w)
  end.

(** The next timer fires, between two microtask checkpoints. *)
Definition fire (w : world) : option world :=
  match timers w with
  | [] => None
  | (due, t) :: rest =>
      let w1 := set_clock (max (clock w) due) (set_timers (λ _, rest) (drain w)) in
      Some (drain (run_task t w1))
  end.

(** The current turn ends; then timers fire until none is left, at most
    [fuel] of them. *)
Fixpoint run (fuel : nat) (w : world) : world :=
  match fuel with
  | 0 => drain w
  | S fuel' => match fire w with Some w' => run fuel' w' | None => drain w end
  end.


End methods.

(** The record of [this.eventMap[eventType][eventName]], if any. *)
Definition registration (w : world) (this : ref) (eventType eventName : string) : option callback :=
  c ← heap w !! this; m ← eventMap c !! eventType; m !! eventName.

(** The properties of a component without the array [content]: an array
    given as the option [content] is stored as it is, so that components
    can share one, and a [push] on it shows in each of them. *)
Definition but_content (c : BaseElement) : BaseElement := set_content [] c.





(** ** Rendering: what is needed, what is left alone *)














(** The module state with these hooks, no component and an empty registry.
    (The module itself creates the component [main] when it is loaded, and
    registers it under the index name ["main"]; the worlds of the examples
    below do without it.) *)
Definition boot (init option_ render_ : list hook) : world :=
  World ∅ 0 0 ∅ lsEmitter init option_ render_ [] [] 0 [].

(** ** Plain names, and nodes that can be appended *)

(** The dictionaries of a component are plain, and so are its key and its
    index name. *)
Definition plain_component (c : BaseElement) : bool :=
  plain_name (key c)
  && from_option plain_name true (indexName c)
  && plain_object (contentMap c)
  && plain_object (eventListeners c)
  && plain_object (eventMap c)
  && forallb (λ registered, plain_object registered.2) (map_to_list (eventMap c)).




(** The components that [this.render()] goes through with [depth] frames of
    stack: the component, and when it is not rendered yet, what the
    members of its [content] go through.  Their nodes are the ones that
    [render] appends or returns. *)
Fixpoint render_reach (depth : nat) (w : world) (this : ref) : list ref :=
  this ::
  match depth with
  | 0 => []
  | S depth' =>
      match heap w !! this with
      | Some c => if rendered c then [] else flat_map (render_reach depth' w) (content c)
      | None => []
      end
  end.

(** The node of [this] is none of the nodes of [those], nor within one of
    them: the walk up the parent nodes, of [steps] steps at most, ends at a
    node without a parent and meets none of [those]. *)
Fixpoint apart (steps : nat) (w : world) (those : list ref) (this : ref) : bool :=
  match steps with
  | 0 => false
  | S steps' =>
      bool_decide (this ∉ those)
      && match heap w !! this with
         | Some c =>
             match parentNode (_conf c) with
             | Some p => apart steps' w those p
             | None => true
             end
         | None => false
         end
  end.

(** [this._conf.append(el.render())] is accepted by the document: the node
    of [this] is not within a node that the rendering of [el] appends or
    returns. *)
Definition can_append (stack : nat) (w : world) (this el : ref) : bool :=
  apart (S (size (heap w))) w (render_reach stack w el) this.

End leistrap.

(** ** Worlds and buses to run the definitions on *)

Module examples.

Import leistrap.

(** A bus whose listeners, callbacks, arguments and values are numbers; a
    listener sends back its first argument, if it has one, and returns; no
    callback throws. *)
Definition echo (l : nat) (args : list nat) : option nat := head args.
Definition prompt (l : nat) (args : list nat) : ending := returns.
Definition safe (cb : nat) (d : option nat) : bool := false.
Definition untagged (v : nat) : option string := None.
Definition fresh : bus nat nat nat nat := lsEmitter.

(** [handle("n", 1, true, false)], [handle("n", 1, false)] and [clear()],
    each on a fresh bus. *)
Definition guarded : bus nat nat nat nat := reply_bus (handle "n" 1 true false fresh).
Definition pinned : bus nat nat nat nat := reply_bus (handle "n" 1 false true fresh).
Definition cleared : bus nat nat nat nat := reply_bus (clear fresh).

(** The depth of the call stack in the examples. *)
Definition frames : nat := 8.

Definition plain : options := Options [] None None None.
Definition child_of (p : ref) : options := Options [] None (Some (by_object p)) None.

Definition before_render : fn := Fn 1 "beforeRender".
Definition shown : fn := Fn 2 "shown".

(** [G = create(..)], [P = create(.., {parent: G})],
    [C = create(.., {parent: P})], and the turn has ended. *)
Definition family : world :=
  let w0 := boot [] [] [hook_function before_render] in
  let w1 := world_of (create frames "G" plain w0) in
  let w2 := world_of (create frames "P" (child_of 0) w1) in
  let w3 := world_of (create frames "C" (child_of 1) w2) in
  run frames 0 w3.


(** Three components without options. *)
Definition trio : world :=
  let w0 := boot [] [] [hook_function before_render] in
  let w1 := world_of (create frames "A" plain w0) in
  let w2 := world_of (create frames "B" plain w1) in
  let w3 := world_of (create frames "D" plain w2) in
  run frames 0 w3.




End examples.

(** ** Utilities *)

(** The numbers that [rangeList] and [splitData] take are integers.  A JS
    number holds every integer up to [2^53] in absolute value: up to there
    [x++] and [%] are exact.  An array holds [2^32 - 1] elements at most. *)
Definition exact (x : Z) : bool := bool_decide (- 2 ^ 53 ≤ x ≤ 2 ^ 53)%Z.
Definition array_length (n : Z) : bool := bool_decide (n < 2 ^ 32)%Z.

(** [x % step == 0] on integers: [%] takes the sign of the dividend, and
    gives [NaN] for [step = 0], which is not [== 0]. *)
Definition is_multiple (x step : Z) : bool :=
  if decide (step = 0%Z) then false else bool_decide (Z.rem x step = 0%Z).

(** The loop of [rangeList], with [rounds] values of [x] left below
    [num]. *)
Fixpoint rangeList_loop (rounds : nat) (x step : Z) (result : list Z) : list Z :=
  match rounds with
  | 0 => result
  | S rounds' =>
      rangeList_loop rounds' (x + 1)%Z step
        (if is_multiple x step then result ++ [x] else result)
  end.

(** [rangeList(num, offset = 0, step = 1)] on integers. *)
Definition rangeList (num offset step : Z) : list Z :=
  rangeList_loop (Z.to_nat (num - offset)) offset step [].

(** [splitData(data, step)] on an array (or a string, as the list of its
    characters), with the default [proto = "length"] and with [fuel] tests
    of the loop condition at most.  [slice] clamps its bounds to the
    length; the [if] behind the loop has the negation of the loop condition
    as its test. *)
Fixpoint splitData_loop {T : Type} (fuel : nat) (data : list T) (step : Z)
    (temp : list (list T)) : option (list (list T)) :=
  match fuel with
  | 0 => None
  | S fuel' =>
      if decide (step < Z.of_nat (length data))%Z then
        let cut := Z.to_nat (Z.of_nat (length data) - step) in
        splitData_loop fuel' (take cut data) step (temp ++ [drop cut data])
      else if decide (Z.of_nat (length data) ≤ step)%Z then Some (temp ++ [data])
      else Some temp
  end.

Definition splitData {T : Type} (fuel : nat) (data : list T) (step : Z) : option (list (list T)) :=
  splitData_loop fuel data step [].

(** [loopObject(obj, callback)] on an object (not [null]) with own
    properties only, for a callback that leaves [obj] alone: the callback
    is called with the value, the key, the index and whether [c] has
    reached [Object.keys(obj).length], and writes to [St]; [loopObject]
    returns the values. *)
Definition loopObject {V St : Type} (obj : gmap string V)
    (callback : V → string → nat → bool → St → St) (s : St) : St * list V :=
  let '(s', _, result) :=
    foldl (λ '(s, c, result) '(x, v),
             let c' := c + 1 in
             let f := bool_decide (c' = size obj) in
             (callback v x (c' - 1) f s, c', result ++ [v]))
          (s, 0, []) (map_to_list obj) in
  (s', result).

(** A name under which [obj[name] = v] writes a property of [obj]:
    ["__proto__"] is the one name under which an object literal has a
    setter. *)
Definition settable (name : string) : bool := bool_decide (name ≠ "__proto__").

(** [inverseObject(_obj)] on an object whose values are strings. *)
Definition inverseObject (_obj : gmap string string) : gmap string string :=
  (loopObject _obj (λ value key _ _ result, <[value := key]> result) ∅).1.

(** [copyObject(obj, target, overwrite = false, ...exp)] on plain objects;
    [None] is a falsy argument.  [target] is written in place and returned;
    [has] is [hasOwnProperty] on [target] and [indexOf] on the array [exp];
    the second assignment, for a [target] that is an array, repeats the
    first. *)
Definition copyObject {V : Type} (obj target : option (gmap string V)) (overwrite : bool)
    (exp : list string) : gmap string V :=
  let obj' := default ∅ obj in
  foldl (λ target' item,
           if negb (has item target' && negb overwrite) then
             if negb (bool_decide (item ∈ exp)) then
               match obj' !! item with
               | Some v => <[item := v]> target'
               | None => target'
               end
             else target'
           else target')
        (default ∅ target) (map_to_list obj').*1.

(** The character [-]. *)
Definition hyphen : Ascii.ascii := Ascii.ascii_of_nat 45.

(** The class [[a-z]] and [toUpperCase] on it. *)
Definition is_lower (a : Ascii.ascii) : bool :=
  (97 <=? Ascii.nat_of_ascii a) && (Ascii.nat_of_ascii a <=? 122).

Definition toUpperCase (a : Ascii.ascii) : Ascii.ascii :=
  if is_lower a then Ascii.ascii_of_nat (Ascii.nat_of_ascii a - 32) else a.

(** [toCamelKey(key)]: [key.replace(/-([a-z])/g, (_, char) => char.toUpperCase())].
    The matches are found from left to right and do not overlap.  A string
    is the list of its bytes: the bytes of a character outside ASCII are
    neither [-] nor in [[a-z]]. *)
Fixpoint toCamelKey (key : string) : string :=
  match key with
  | EmptyString => EmptyString
  | String a rest =>
      match rest with
      | String b rest' =>
          if bool_decide (a = hyphen) && is_lower b
          then String (toUpperCase b) (toCamelKey rest')
          else String a (toCamelKey rest)
      | EmptyString => String a EmptyString
      end
  end.


(** Whether [/-([a-z])/] matches somewhere in [key]. *)
Fixpoint hyphenated (key : string) : bool :=
  match key with
  | EmptyString => false
  | String a rest =>
      match rest with
      | String b _ => (bool_decide (a = hyphen) && is_lower b) || hyphenated rest
      | EmptyString => false
      end
  end.

(** The first character of a string, if any. *)
Definition first_char (s : string) : option Ascii.ascii :=
  match s with String a _ => Some a | EmptyString => None end.

(** ** Clients of a bus *)

Section client.

Context {L CB A V : Type}.
Variable listener_sends : L → list A → option V.
Variable listener_ends : L → list A → ending.
Variable callback_throws : CB → option V → bool.
Variable data_channel : V → option string.

(** [removeEvent] and [clear] in the system of a bus with its timers. *)
Definition sys_removeEvent (channel : string) (s : system L CB A V) : system L CB A V :=
  apply_reply (removeEvent data_channel channel (sys_bus s)) s.

Definition sys_clear (s : system L CB A V) : system L CB A V :=
  apply_reply (clear (sys_bus s)) s.

(** What the holder of a bus can do next: call one of its methods, or let
    the next timer fire. *)
Inductive request :=
| do_invoke (channel : string) (cb : option CB) (args : list A)
| do_handle (channel : string) (l : L) (rm wr : bool)
| do_removeEvent (channel : string)
| do_removeChannel (channel : string)
| do_hasEvent (channel : string)
| do_eventsList
| do_clear
| do_wait.

Definition serve (r : request) (s : system L CB A V) : system L CB A V :=
  match r with
  | do_invoke channel cb args => sys_invoke channel cb args s
  | do_handle channel l rm wr => sys_handle channel l rm wr s
  | do_removeEvent channel => sys_removeEvent channel s
  | do_removeChannel channel =>
      apply_reply (removeChannel data_channel channel (sys_bus s)) s
  | do_hasEvent channel => apply_reply (hasEvent channel (sys_bus s)) s
  | do_eventsList => apply_reply (eventsList (sys_bus s)) s
  | do_clear => sys_clear s
  | do_wait => default s (fire listener_sends listener_ends callback_throws s)
  end.

(** A session with a new bus. *)
Definition play (script : list request) : system L CB A V :=
  foldl (λ s r, serve r s) (System lsEmitter [] 0 []) script.

(** The name that a request gives, if it gives one, is plain. *)
Definition plain_request (r : request) : bool :=
  match r with
  | do_invoke channel _ _ | do_handle channel _ _ _ | do_removeEvent channel
  | do_removeChannel channel | do_hasEvent channel => plain_name channel
  | do_eventsList | do_clear | do_wait => true
  end.

(** What holds of the two dictionaries of an instance: the names of the
    channels and of the queues are valid; no name has both a channel and a
    queue; a queue is not empty and holds invocations of its name; a
    cleared instance has nothing. *)
Definition orderly (b : bus L CB A V) : Prop :=
  (∀ n, is_Some (channels b !! n) →
     validateChannelName n = None ∧ inWaitChannel b !! n = None)
  ∧ (∀ n q, inWaitChannel b !! n = Some q →
       validateChannelName n = None ∧ q ≠ [] ∧ Forall (λ e, exe_channel e = n) q)
  ∧ (active b ∨ (destroyed b ∧ channels b = ∅ ∧ inWaitChannel b = ∅)).

(** What holds of the variables of an instance between two turns, when
    every listener returns and no result callback throws: moreover, no
    value is left in [data]. *)
Definition consistent (b : bus L CB A V) : Prop :=
  data b = None ∧ orderly b.

(** The call that a dispatch makes when its channel is gone: the result
    callback, if any, with [null]. *)
Definition orphan_calls (e : exe CB A) : list (call L CB A V) :=
  match exe_listener e with
  | Some cb => [called_callback (exe_channel e) cb None]
  | None => []
  end.

End client.

(** ** Lookup by index name, from outside the components *)


(** ** More buses and worlds to run the definitions on *)

Module scenarios.

Import leistrap examples.

(** A system around the bus [pinned], whose channel ["n"] is writable and
    not removable, and around [guarded], whose channel ["n"] is removable
    and not writable; and [pinned] with a dispatch of ["n"] under way. *)
Definition listening : system nat nat nat nat := System pinned [] 0 [].
Definition replaceable : system nat nat nat nat := System guarded [] 0 [].
Definition under_way : system nat nat nat nat := sys_invoke "n" (Some 7) [42] listening.



End scenarios.

(** * Properties of the channel bus *)

Section lsEmitter_properties.

Context {L CB A V : Type}.
Variable listener_sends : L → list A → option V.
Variable listener_ends : L → list A → ending.
Variable callback_throws : CB → option V → bool.
Variable data_channel : V → option string.
Implicit Types (b : bus L CB A V) (s : system L CB A V) (e : exe CB A).

Lemma has_lookup {X : Type} (k : string) (m : gmap string X) :
  has k m = if m !! k is Some _ then true else false.
Proof.
  unfold has. destruct (m !! k) eqn:H.
  - apply bool_decide_eq_true. by eexists.
  - apply bool_decide_eq_false. by intros [??].
Qed.

Lemma new_EVENTS_own meth x : new_EVENTS !! meth = Some x → x = own_function.
Proof.
  unfold new_EVENTS. intros H. apply elem_of_list_to_map_2 in H.
  repeat (apply elem_of_cons in H as [H|H]; [by inversion H|]).
  by apply elem_of_nil in H.
Qed.

Lemma method_own meth body b :
  active b → is_Some (new_EVENTS !! meth) → method meth body b = body b.
Proof.
  intros [_ HE] [x Hx]. unfold method. rewrite HE, Hx.
  by rewrite (new_EVENTS_own _ _ Hx).
Qed.

Lemma method_checkState meth body b :
  destroyed b → is_Some (new_EVENTS !! meth) →
  method meth body b = Reply b (Throw EVENT_DESTROYED) [].
Proof.
  intros [Hd HE] [x Hx]. unfold method. rewrite HE, lookup_fmap, Hx. simpl.
  unfold checkState_body, checkState. by rewrite Hd.
Qed.

Lemma lsEmitter_active : active (lsEmitter : bus L CB A V).
Proof. by split. Qed.

Lemma clear_destroys b : active b → destroyed (reply_bus (clear b)).
Proof.
  intros Ha. unfold clear. rewrite method_own by (done || by eexists).
  destruct Ha as [Hd HE]. unfold clear_body, checkState. rewrite Hd. simpl.
  split; [done|]. by rewrite HE.
Qed.

Lemma clear_returns b : active b → reply_completion (clear b) = Return (r_bool true).
Proof.
  intros Ha. unfold clear. rewrite method_own by (done || by eexists).
  destruct Ha as [Hd HE]. unfold clear_body, checkState. by rewrite Hd.
Qed.

(** An operation other than [clear] does not leave the active
    configuration. *)
Lemma invoke_active n cb args b : active b → active (reply_bus (invoke n cb args b)).
Proof.
  intros Ha. unfold invoke. rewrite method_own by (done || by eexists).
  unfold invoke_body. destruct Ha as [Hd HE]. rewrite Hd. simpl.
  destruct (validateChannelName n); [done|].
  by destruct (has n (channels b)).
Qed.

Lemma handle_active n l rm wr b : active b → active (reply_bus (handle n l rm wr b)).
Proof.
  intros Ha. unfold handle. rewrite method_own by (done || by eexists).
  unfold handle_body, checkState. destruct Ha as [Hd HE]. rewrite Hd.
  destruct (validateChannelName n); [done|].
  by destruct (has n (channels b) && _).
Qed.

Lemma removeChannel_body_active n b :
  active b → active (reply_bus (removeChannel_body data_channel n b)).
Proof.
  intros Ha. unfold removeChannel_body, checkState. destruct Ha as [Hd HE]. rewrite Hd.
  destruct (validateChannelName n); [done|].
  destruct (channels b !! n) as [c|]; [|done].
  destruct (negb (removable c)); [done|]. simpl.
  destruct (data b) as [d|]; [|done].
  by destruct (decide (data_channel d = Some n)).
Qed.

Lemma queries_active n b :
  active b →
  reply_bus (hasEvent n b) = b ∧ reply_bus (eventsList b) = b.
Proof.
  intros Ha. unfold hasEvent, eventsList.
  rewrite !method_own by (done || by eexists).
  unfold hasEvent_body, eventsList_body. destruct Ha as [Hd HE]. by rewrite Hd.
Qed.

Lemma run_exe_isDestroyed e b :
  isDestroyed (run_exe listener_sends listener_ends callback_throws e b).1 = isDestroyed b
  ∧ EVENTS (run_exe listener_sends listener_ends callback_throws e b).1 = EVENTS b.
Proof.
  unfold run_exe, exe_rest, exe_listener_run, exe_reset.
  by repeat case_match; simplify_eq.
Qed.

Lemma handle_body_spec n l rm wr b :
  isDestroyed b = false → validateChannelName n = None →
  handle_body n l rm wr b =
    if from_option writable true (channels b !! n)
    then Reply (handled n l rm wr b) Fulfilled (default [] (inWaitChannel b !! n))
    else Reply b (Rejected NON_WRITABLE_CHANNEL) [].
Proof.
  intros Hd Hv. unfold handle_body, checkState. rewrite Hd, Hv, has_lookup.
  destruct (channels b !! n) as [c|] eqn:Hc; simpl; [|done].
  by destruct (writable c).
Qed.

Lemma handle_fulfilled n l rm wr b :
  reply_completion (handle n l rm wr b) = Fulfilled →
  EVENTS b !! "handle" = Some own_function
  ∧ isDestroyed b = false
  ∧ validateChannelName n = None
  ∧ from_option writable true (channels b !! n) = true
  ∧ handle n l rm wr b
    = Reply (handled n l rm wr b) Fulfilled (default [] (inWaitChannel b !! n)).
Proof.
  unfold handle, method.
  destruct (EVENTS b !! "handle") as [[]|] eqn:HE; simpl.
  2: { unfold checkState_body. by destruct (checkState b). }
  2: done.
  destruct (isDestroyed b) eqn:Hd.
  { unfold handle_body, checkState. by rewrite Hd. }
  destruct (validateChannelName n) eqn:Hv.
  { unfold handle_body, checkState. by rewrite Hd, Hv. }
  rewrite handle_body_spec by done.
  by destruct (from_option writable true (channels b !! n)).
Qed.



(** *** Timers *)

Lemma schedule_behind {T : Type} (d : nat) (t : T) (q1 q2 : list (nat * T)) :
  Forall (λ x, x.1 ≤ d) q1 →
  (∀ x, head q2 = Some x → d < x.1) →
  schedule d t (q1 ++ q2) = q1 ++ (d, t) :: q2.
Proof.
  intros H1 H2. induction H1 as [|[d' x] q1 Hx _ IH]; simpl.
  - destruct q2 as [|[d' x] q2]; [done|]. simpl.
    specialize (H2 _ eq_refl). simpl in H2. by rewrite decide_False by lia.
  - simpl in Hx. rewrite decide_True by done. by rewrite IH.
Qed.

Lemma schedule_all_behind {T : Type} (d : nat) (ts : list T) (q1 q2 : list (nat * T)) :
  Forall (λ x, x.1 ≤ d) q1 →
  (∀ x, head q2 = Some x → d < x.1) →
  schedule_all d ts (q1 ++ q2) = q1 ++ ((λ t, (d, t)) <$> ts) ++ q2.
Proof.
  revert q1. induction ts as [|t ts IH]; intros q1 H1 H2; [done|].
  unfold schedule_all. simpl. rewrite schedule_behind by done.
  change (foldl _ ?q ts) with (schedule_all d ts q).
  replace (q1 ++ (d, t) :: q2) with ((q1 ++ [(d, t)]) ++ q2) by by rewrite <- app_assoc.
  rewrite IH; [by rewrite <- app_assoc | | done].
  apply Forall_app. split; [done|]. by repeat constructor.
Qed.

(** Every queue splits at the place where a timer due at [d] goes. *)
Lemma queue_split {T : Type} (d : nat) (q : list (nat * T)) :
  ∃ q1 q2, q = q1 ++ q2 ∧ Forall (λ x, x.1 ≤ d) q1 ∧ (∀ x, head q2 = Some x → d < x.1).
Proof.
  induction q as [|[d' x] q (q1 & q2 & -> & H1 & H2)].
  - exists [], []. by repeat split.
  - destruct (decide (d' ≤ d)).
    + exists ((d', x) :: q1), q2. repeat split; [by constructor | done].
    + exists [], ((d', x) :: q1 ++ q2). repeat split; [done|].
      intros ? [= <-]. simpl. lia.
Qed.

(** *** Dispatches *)

(** The rest of [exe] when no result callback throws: the callback is
    called with what is in [data], and [data] is reset. *)
Lemma exe_rest_harmless e b :
  harmless callback_throws →
  exe_rest callback_throws e b
  = (exe_reset b,
     match exe_result e b with
     | Some (cb, d) => [called_callback (exe_channel e) cb d]
     | None => []
     end).
Proof.
  intros Hcb. unfold exe_rest. destruct (exe_result e b) as [[cb d]|]; [|done].
  by rewrite Hcb.
Qed.

Lemma run_exe_on_channel n e b c :
  synchronous listener_ends → harmless callback_throws →
  isDestroyed b = false → data b = None →
  channels b !! n = Some c → exe_channel e = n →
  run_exe listener_sends listener_ends callback_throws e b
  = (set_data None b, dispatch_calls listener_sends (listener c) e).
Proof.
  intros Hl Hcb Hd Hdata Hc He. unfold run_exe, exe_target.
  rewrite Hd, He, Hc. simpl. rewrite Hl, exe_rest_harmless by done.
  unfold exe_result, exe_listener_run, exe_reset, dispatch_calls. rewrite He.
  destruct (listener_sends (listener c) (exe_args e)) as [d|] eqn:Hs; simpl;
    rewrite Hd, ?Hdata; by destruct (exe_listener e).
Qed.

Lemma run_exe_off_channel n e b :
  synchronous listener_ends → harmless callback_throws →
  exe_channel e ≠ n →
  ∃ d, (run_exe listener_sends listener_ends callback_throws e b).1 = set_data None (set_data d b)
  ∧ calls_on n (run_exe listener_sends listener_ends callback_throws e b).2 = [].
Proof.
  intros Hl Hcb He. unfold run_exe, calls_on.
  destruct (exe_target e b) as [l|]; simpl.
  - rewrite Hl, exe_rest_harmless by done. unfold exe_listener_run, exe_reset.
    destruct (listener_sends l (exe_args e)) as [d|]; [exists (Some d) | exists (data b)];
      (split; [by destruct b|]);
      destruct (exe_result e _) as [[??]|]; simpl;
      rewrite ?filter_cons_False, ?filter_nil by done; done.
  - rewrite exe_rest_harmless by done. exists (data b). split; [by destruct b|].
    destruct (exe_result e _) as [[??]|]; simpl;
      rewrite ?filter_cons_False, ?filter_nil by done; done.
Qed.

Lemma set_data_None_id b d : data b = None → set_data None (set_data d b) = b.
Proof. destruct b. simpl. by intros ->. Qed.

Lemma run_cons k b due e (T : list (nat * exe CB A)) c log :
  run listener_sends listener_ends callback_throws (S k) (System b ((due, e) :: T) c log)
  = run listener_sends listener_ends callback_throws k
      (System (run_exe listener_sends listener_ends callback_throws e b).1 T (c `max` due)
              (log ++ (run_exe listener_sends listener_ends callback_throws e b).2)).
Proof. simpl. unfold fire. simpl. by destruct (run_exe listener_sends listener_ends callback_throws e b). Qed.

Lemma run_nil k b c log :
  run listener_sends listener_ends callback_throws k (System b [] c log) = System b [] c log.
Proof. by destruct k. Qed.


(** Every pending timer fires while [n] has the listener of [c]: on [n],
    the dispatches of [n] make their calls in the order of the queue. *)
Lemma run_on_channel n c s :
  synchronous listener_ends → harmless callback_throws →
  isDestroyed (sys_bus s) = false →
  data (sys_bus s) = None →
  channels (sys_bus s) !! n = Some c →
  sys_timers (run listener_sends listener_ends callback_throws (length (sys_timers s)) s) = []
  ∧ sys_bus (run listener_sends listener_ends callback_throws (length (sys_timers s)) s) = sys_bus s
  ∧ calls_on n (sys_log (run listener_sends listener_ends callback_throws (length (sys_timers s)) s))
    = calls_on n (sys_log s)
      ++ flat_map (dispatch_calls listener_sends (listener c))
                  (filter (λ e, exe_channel e = n) (sys_timers s).*2).
Proof.
  intros Hl Hcb.
  destruct s as [b T c0 log]. cbn [sys_timers sys_bus sys_log sys_clock]. revert c0 log.
  induction T as [|[due e] T IH]; intros c0 log Hd Hdata Hc.
  { simpl. by rewrite app_nil_r. }
  simpl length. rewrite run_cons.
  destruct (decide (exe_channel e = n)) as [He|He].
  - rewrite (run_exe_on_channel n e b c) by done. simpl fst; simpl snd.
    assert (set_data None b = b) as -> by (destruct b; simpl in *; by subst).
    destruct (IH (c0 `max` due) (log ++ dispatch_calls listener_sends (listener c) e)
                Hd Hdata Hc) as (-> & -> & ->).
    repeat split. rewrite fmap_cons, filter_cons_True by done. simpl flat_map.
    unfold calls_on at 1. rewrite filter_app, <- app_assoc. f_equal. f_equal.
    unfold dispatch_calls. rewrite He.
    destruct (exe_listener e); simpl;
      rewrite !filter_cons_True by done; by rewrite filter_nil.
  - destruct (run_exe_off_channel n e b Hl Hcb He) as (d & Hb & Hcalls).
    rewrite set_data_None_id in Hb by done. rewrite Hb.
    destruct (IH (c0 `max` due) (log ++ (run_exe listener_sends listener_ends callback_throws e b).2) Hd Hdata Hc)
      as (-> & -> & ->).
    repeat split. rewrite fmap_cons, filter_cons_False by done.
    unfold calls_on in *. by rewrite filter_app, Hcalls, app_nil_r.
Qed.

(** The dispatches of [n] among timers none of which was for [n], after
    [handle] has handed the queue of [n] to [obj.after(1, _)]. *)
Lemma scheduled_on_channel n (d : nat) (es : list (exe CB A)) (q : list (nat * exe CB A)) :
  Forall (λ x, exe_channel x.2 ≠ n) q →
  Forall (λ e, exe_channel e = n) es →
  filter (λ e, exe_channel e = n) (schedule_all d es q).*2 = es.
Proof.
  intros Hq Hes. destruct (queue_split d q) as (q1 & q2 & -> & H1 & H2).
  rewrite schedule_all_behind by done.
  apply Forall_app in Hq as [Hq1 Hq2].
  rewrite !fmap_app, !filter_app.
  assert (∀ q' : list (nat * exe CB A), Forall (λ x, exe_channel x.2 ≠ n) q' →
            filter (λ e, exe_channel e = n) q'.*2 = []) as Hnone.
  { induction 1 as [|[??] ?? _ IH]; [done|]. simpl in *.
    by rewrite filter_cons_False. }
  rewrite (Hnone q1), (Hnone q2) by done. rewrite app_nil_r. simpl.
  clear -Hes. induction Hes as [|e es He _ IH]; [done|].
  rewrite !fmap_cons. simpl. rewrite filter_cons_True by done. by rewrite IH.
Qed.

(** *** [invoke] before [handle] *)






(** C8, as amended.  Once [clear] has run on an instance, every operation
    called on that instance afterwards fails with [EVENT_DESTROYED]: [invoke],
    [handle], [removeEvent], [removeChannel] and [clear], and the queries
    [hasEvent] and [eventsList] as well, since [clear] overwrites every slot
    of the table with [checkState].  The instance stays as it is (the
    transition is one way), and on an active instance no operation other
    than [clear] makes the transition, nor does a dispatch. *)
Theorem clear_is_final b :
  active b →
  let b' := reply_bus (clear b) in
  reply_completion (clear b) = Return (r_bool true)
  ∧ destroyed b'
  ∧ (∀ n cb args, invoke n cb args b' = Reply b' (Throw EVENT_DESTROYED) [])
  ∧ (∀ n l rm wr, handle n l rm wr b' = Reply b' (Throw EVENT_DESTROYED) [])
  ∧ (∀ n, removeEvent data_channel n b' = Reply b' (Throw EVENT_DESTROYED) [])
  ∧ (∀ n, removeChannel data_channel n b' = Reply b' (Throw EVENT_DESTROYED) [])
  ∧ (∀ n, hasEvent n b' = Reply b' (Throw EVENT_DESTROYED) [])
  ∧ eventsList b' = Reply b' (Throw EVENT_DESTROYED) []
  ∧ clear b' = Reply b' (Throw EVENT_DESTROYED) []
  ∧ (∀ n cb args, active (reply_bus (invoke n cb args b)))
  ∧ (∀ n l rm wr, active (reply_bus (handle n l rm wr b)))
  ∧ (∀ n, active (reply_bus (removeEvent data_channel n b)))
  ∧ (∀ n, active (reply_bus (removeChannel data_channel n b)))
  ∧ (∀ n, active (reply_bus (hasEvent n b)))
  ∧ active (reply_bus (eventsList b))
  ∧ (∀ e, active (run_exe listener_sends listener_ends callback_throws e b).1).
Proof.
  intros Ha b'. pose proof (clear_destroys b Ha) as Hd. fold b' in Hd.
  split; [by apply clear_returns|]. split; [done|].
  repeat match goal with |- _ ∧ _ => split end;
    try (intros; apply method_checkState; [done | by eexists]).
  - intros. by apply invoke_active.
  - intros. by apply handle_active.
  - intros n. unfold removeEvent. rewrite method_own by (done || by eexists).
    apply removeChannel_body_active, Ha.
  - intros n. unfold removeChannel. rewrite method_own by (done || by eexists).
    apply removeChannel_body_active, Ha.
  - intros n. by rewrite (proj1 (queries_active n b Ha)).
  - by rewrite (proj2 (queries_active "" b Ha)).
  - intros e. destruct (run_exe_isDestroyed e b) as [H1 H2].
    split; [rewrite H1 | rewrite H2]; apply Ha.
Qed.


End lsEmitter_properties.

(** * Properties of the component tree *)

Section leistrap_properties.

Import leistrap.

(** The depth of the call stack. *)
Variable stack : nat.

Implicit Types (w : world) (c : BaseElement) (this : ref).

Lemma lookup_update this (f : BaseElement → BaseElement) w :
  heap (update this f w) !! this = f <$> heap w !! this.
Proof. unfold update. simpl. by rewrite lookup_alter_eq. Qed.

Lemma lookup_update_ne this r (f : BaseElement → BaseElement) w :
  this ≠ r → heap (update this f w) !! r = heap w !! r.
Proof. intros. unfold update. simpl. by rewrite lookup_alter_ne. Qed.




(** ** Named event registrations *)


(** ** Rendering *)






















(** ** Index names *)

Lemma handle_spec {L CB A V : Type} n (l : L) rm wr (b : bus L CB A V) :
  active b → validateChannelName n = None →
  handle n l rm wr b =
    if from_option writable true (channels b !! n)
    then Reply (handled n l rm wr b) Fulfilled (default [] (inWaitChannel b !! n))
    else Reply b (Rejected NON_WRITABLE_CHANNEL) [].
Proof.
  intros Ha Hv. unfold handle. rewrite method_own by (done || by eexists).
  apply handle_body_spec; [apply Ha | done].
Qed.


(** The setter of [data.id] for a name that has no channel yet. *)
Lemma set_id_fresh this x w :
  is_Some (heap w !! this) →
  active (indexedElementEvent w) →
  validateChannelName x = None →
  channels (indexedElementEvent w) !! x = None →
  set_id this x w
  = done (set_microtasks (λ q, q ++ [then_indexName this x])
            (set_timers
               (schedule_all (clock w + 1)
                  (t_exe <$> default [] (inWaitChannel (indexedElementEvent w) !! x)))
               (set_indexedElementEvent
                  (handled x this true false (indexedElementEvent w)) w))) tt.
Proof.
  intros [c Hc] Ha Hv Hx. unfold set_id. rewrite Hc.
  rewrite handle_spec by done. by rewrite Hx.
Qed.



(** ** Destruction *)











(** ** Resolution by index name *)











Lemma handleAllEvent_later name this timeout argv w c :
  heap w !! this = Some c →
  timeout ≠ 0 →
  handleAllEvent name this timeout argv w
  = done (set_timers
            (schedule_all (clock w + timeout)
               ((λ item, t_lifecycle name item this argv)
                  <$> default [] (eventListeners c !! name))) w) tt.
Proof.
  intros Hc Ht. unfold handleAllEvent. rewrite Hc.
  destruct (eventListeners c !! name); simpl; [by rewrite decide_False|].
  by destruct w.
Qed.



Lemma invoke_spec {L CB A V : Type} n cb args (b : bus L CB A V) :
  active b → validateChannelName n = None →
  invoke n cb args b =
    if channels b !! n is Some _
    then Reply b Fulfilled [Exe n cb args]
    else Reply (set_inWaitChannel
                  <[n := default [] (inWaitChannel b !! n) ++ [Exe n cb args]]> b)
               Fulfilled [].
Proof.
  intros Ha Hv. unfold invoke. rewrite method_own by (done || by eexists).
  unfold invoke_body. rewrite Hv, has_lookup. destruct Ha as [-> _].
  by destruct (channels b !! n).
Qed.







End leistrap_properties.

(** * More properties of the channel bus *)

Section lsEmitter_in_use.

Context {L CB A V : Type}.
Variable listener_sends : L → list A → option V.
Variable listener_ends : L → list A → ending.
Variable callback_throws : CB → option V → bool.
Variable data_channel : V → option string.
Implicit Types (b : bus L CB A V) (s : system L CB A V) (n : string).

Lemma validateChannelName_blank n :
  validateChannelName n = Some INVALID_CHANNEL_NAME ↔ trim n = EmptyString.
Proof.
  unfold validateChannelName. destruct (decide (n = EmptyString)) as [->|Hn].
  - done.
  - destruct (decide (trim n = EmptyString)); split; congruence.
Qed.

Lemma validateChannelName_cases n :
  validateChannelName n = None ∨ validateChannelName n = Some INVALID_CHANNEL_NAME.
Proof. unfold validateChannelName. repeat case_decide; auto. Qed.

(** X1.  A name that is empty or made of white space is refused by [invoke],
    [handle], [removeEvent] and [removeChannel] with [INVALID_CHANNEL_NAME]
    (a rejection for the two [async] functions, a throw for the others),
    and the instance is as before; [hasEvent] does not validate the name,
    and on an instance with plain names it tells whether there is a channel
    of that name. *)
Theorem blank_channel_names_are_refused n b :
  regular b = true →
  active b →
  trim n = EmptyString →
  (∀ cb args, invoke n cb args b = Reply b (Rejected INVALID_CHANNEL_NAME) [])
  ∧ (∀ l rm wr, handle n l rm wr b = Reply b (Rejected INVALID_CHANNEL_NAME) [])
  ∧ removeEvent data_channel n b = Reply b (Throw INVALID_CHANNEL_NAME) []
  ∧ removeChannel data_channel n b = Reply b (Throw INVALID_CHANNEL_NAME) []
  ∧ hasEvent n b = Reply b (Return (r_bool (has n (channels b)))) [].
Proof.
  intros _ Hb Hn%validateChannelName_blank.
  pose proof Hb as [Hd _].
  unfold invoke, handle, removeEvent, removeChannel, hasEvent.
  split_and!; intros; rewrite method_own by (done || by eexists);
    unfold invoke_body, handle_body, removeChannel_body, hasEvent_body, checkState;
    by rewrite ?Hd, ?Hn.
Qed.

(** X2.  On an instance with plain names, [eventsList] and [hasEvent] agree:
    the list has every channel name once, and [hasEvent(n)] tells whether
    [n] is in it; neither changes the instance. *)
Theorem queries_agree b :
  regular b = true →
  active b →
  ∃ names,
    eventsList b = Reply b (Return (r_keys names)) []
    ∧ NoDup names
    ∧ ∀ n, hasEvent n b = Reply b (Return (r_bool (bool_decide (n ∈ names)))) [].
Proof.
  intros _ Hb. pose proof Hb as [Hd _].
  exists (map_to_list (channels b)).*1.
  unfold eventsList, hasEvent.
  rewrite method_own by (done || by eexists).
  unfold eventsList_body, hasEvent_body. rewrite Hd. split_and!; [done | apply NoDup_fst_map_to_list |].
  intros n. rewrite method_own by (done || by eexists).
  rewrite Hd. do 3 f_equal. unfold has. apply bool_decide_ext.
  rewrite list_elem_of_fmap. split.
  - intros [c Hc]. exists (n, c). split; [done | by apply elem_of_map_to_list].
  - intros [[n' c] [-> Hc%elem_of_map_to_list]]. by eexists.
Qed.

Lemma bus_eta b :
  Bus (channels b) (inWaitChannel b) (data b) (isDestroyed b) (EVENTS b) = b.
Proof. by destruct b. Qed.

Lemma removeEvent_spec n b :
  active b → validateChannelName n = None →
  removeEvent data_channel n b = removeChannel_body data_channel n b
  ∧ removeChannel data_channel n b = removeChannel_body data_channel n b
  ∧ removeChannel_body data_channel n b =
      match channels b !! n with
      | None => Reply b (Throw CHANNEL_NOT_FOUND) []
      | Some c =>
          if removable c then
            Reply (match data b with
                   | Some d =>
                       if decide (data_channel d = Some n)
                       then set_data None (set_inWaitChannel (delete n) (set_channels (delete n) b))
                       else set_inWaitChannel (delete n) (set_channels (delete n) b)
                   | None => set_inWaitChannel (delete n) (set_channels (delete n) b)
                   end) (Return r_undefined) []
          else Reply b (Throw NON_REMOVABLE_CHANNEL) []
      end.
Proof.
  intros Hb Hn. pose proof Hb as [Hd _].
  unfold removeEvent, removeChannel. rewrite !method_own by (done || by eexists).
  split_and!; [done..|].
  unfold removeChannel_body, checkState. rewrite Hd, Hn.
  destruct (channels b !! n) as [c|]; [|done]. by destruct (removable c).
Qed.

(** X3.  On a plain name that has neither a channel nor a queue, in an
    instance with plain names, [handle] followed by [removeEvent] gives the
    instance back as it was; a second [removeEvent] finds no channel. *)
Theorem removeEvent_undoes_handle n l wr b :
  plain_name n = true →
  regular b = true →
  active b →
  validateChannelName n = None →
  data b = None →
  channels b !! n = None →
  inWaitChannel b !! n = None →
  let b1 := reply_bus (handle n l true wr b) in
  handle n l true wr b = Reply b1 Fulfilled []
  ∧ channels b1 !! n = Some (Channel l true wr)
  ∧ removeEvent data_channel n b1 = Reply b (Return r_undefined) []
  ∧ removeEvent data_channel n b = Reply b (Throw CHANNEL_NOT_FOUND) [].
Proof.
  intros _ _ Hb Hn Hdata Hc Hq b1.
  assert (handle n l true wr b = Reply (handled n l true wr b) Fulfilled []) as Hh.
  { rewrite handle_spec by done. by rewrite Hc, Hq. }
  subst b1. rewrite Hh. cbn [reply_bus].
  assert (active (handled n l true wr b)) as Hb1 by (destruct Hb; by split).
  split_and!; [done | apply lookup_insert_eq | |].
  - destruct (removeEvent_spec n (handled n l true wr b) Hb1 Hn) as (-> & _ & ->).
    cbn [handled set_channels set_inWaitChannel channels inWaitChannel data].
    rewrite lookup_insert_eq. cbn [removable]. rewrite Hdata.
    f_equal. unfold handled, set_inWaitChannel, set_channels. simpl.
    rewrite delete_insert_id by done.
    rewrite !delete_id by (done || by rewrite lookup_delete_eq).
    apply bus_eta.
  - destruct (removeEvent_spec n b Hb Hn) as (-> & _ & ->). by rewrite Hc.
Qed.

(** X4.  A channel defined with [removable = false] stays: [removeEvent] and
    [removeChannel] throw [NON_REMOVABLE_CHANNEL] and leave the instance as
    it is.  The name and the names of the instance are plain. *)
Theorem non_removable_channel_stays n l wr b :
  plain_name n = true →
  regular b = true →
  active b →
  reply_completion (handle n l false wr b) = Fulfilled →
  let b1 := reply_bus (handle n l false wr b) in
  channels b1 !! n = Some (Channel l false wr)
  ∧ removeEvent data_channel n b1 = Reply b1 (Throw NON_REMOVABLE_CHANNEL) []
  ∧ removeChannel data_channel n b1 = Reply b1 (Throw NON_REMOVABLE_CHANNEL) [].
Proof.
  intros _ _ Hb (_ & _ & Hn & _ & Hh)%handle_fulfilled b1. subst b1. rewrite Hh.
  cbn [reply_bus].
  assert (channels (handled n l false wr b) !! n = Some (Channel l false wr)) as Hc
    by apply lookup_insert_eq.
  assert (active (handled n l false wr b)) as Hb1 by (destruct Hb; by split).
  destruct (removeEvent_spec n _ Hb1 Hn) as (-> & -> & ->).
  by rewrite Hc.
Qed.


(** X5.  A channel that is not writable but removable can still be given
    another listener: [handle] alone is rejected, [removeEvent] followed by
    [handle] goes through.  The name and the names of the instance are
    plain. *)
Theorem non_writable_channel_can_be_replaced n l1 l2 rm wr b :
  plain_name n = true →
  regular b = true →
  active b →
  validateChannelName n = None →
  data b = None →
  channels b !! n = Some (Channel l1 true false) →
  let b1 := reply_bus (removeEvent data_channel n b) in
  let b2 := reply_bus (handle n l2 rm wr b1) in
  handle n l2 rm wr b = Reply b (Rejected NON_WRITABLE_CHANNEL) []
  ∧ reply_completion (removeEvent data_channel n b) = Return r_undefined
  ∧ reply_completion (handle n l2 rm wr b1) = Fulfilled
  ∧ channels b2 !! n = Some (Channel l2 rm wr).
Proof.
  intros _ _ Hb Hn Hdata Hc b1 b2.
  destruct (removeEvent_spec n b Hb Hn) as (Hr & _ & Hbody).
  rewrite Hc, Hdata in Hbody. cbn [removable] in Hbody.
  subst b2 b1. rewrite Hr, Hbody. cbn [reply_bus reply_completion].
  set (b1 := set_inWaitChannel _ _).
  assert (active b1) as Hb1 by (destruct Hb; by split).
  assert (channels b1 !! n = None) as Hc1 by apply lookup_delete_eq.
  rewrite !handle_spec by done. rewrite Hc, Hc1. cbn [from_option writable reply_bus reply_completion].
  split_and!; [done..|]. apply lookup_insert_eq.
Qed.

Lemma run_exe_without_channel n e b :
  harmless callback_throws →
  isDestroyed b = false → data b = None →
  channels b !! n = None → exe_channel e = n →
  run_exe listener_sends listener_ends callback_throws e b = (b, orphan_calls e).
Proof.
  intros Hcb Hd Hdata Hc He. unfold run_exe, exe_target.
  rewrite Hd, He, Hc. simpl. rewrite exe_rest_harmless by done.
  unfold exe_result, orphan_calls. rewrite Hd, Hdata.
  f_equal; [|by destruct (exe_listener e)].
  unfold exe_reset. rewrite <- Hdata. destruct b; done.
Qed.

(** Every pending timer fires while [n] has no channel: on [n], the
    dispatches of [n] only call their result callbacks, with [null]. *)
Lemma run_without_channel n s :
  synchronous listener_ends → harmless callback_throws →
  isDestroyed (sys_bus s) = false →
  data (sys_bus s) = None →
  channels (sys_bus s) !! n = None →
  sys_timers (run listener_sends listener_ends callback_throws (length (sys_timers s)) s) = []
  ∧ sys_bus (run listener_sends listener_ends callback_throws (length (sys_timers s)) s) = sys_bus s
  ∧ calls_on n (sys_log (run listener_sends listener_ends callback_throws (length (sys_timers s)) s))
    = calls_on n (sys_log s)
      ++ flat_map orphan_calls (filter (λ e, exe_channel e = n) (sys_timers s).*2).
Proof.
  intros Hl Hcb.
  destruct s as [b T c0 log]. cbn [sys_timers sys_bus sys_log sys_clock]. revert c0 log.
  induction T as [|[due e] T IH]; intros c0 log Hd Hdata Hc.
  { simpl. by rewrite app_nil_r. }
  simpl length. rewrite run_cons.
  destruct (decide (exe_channel e = n)) as [He|He].
  - rewrite (run_exe_without_channel n e b) by done. simpl fst; simpl snd.
    destruct (IH (c0 `max` due) (log ++ orphan_calls e) Hd Hdata Hc) as (-> & -> & ->).
    repeat split. rewrite fmap_cons, filter_cons_True by done. simpl flat_map.
    unfold calls_on at 1. rewrite filter_app, <- app_assoc. f_equal. f_equal.
    unfold orphan_calls. rewrite He.
    destruct (exe_listener e); simpl;
      rewrite ?filter_cons_True by done; by rewrite filter_nil.
  - destruct (run_exe_off_channel listener_sends listener_ends callback_throws n e b Hl Hcb He)
      as (d & Hb & Hcalls).
    rewrite set_data_None_id in Hb by done. rewrite Hb.
    destruct (IH (c0 `max` due) (log ++ (run_exe listener_sends listener_ends callback_throws e b).2) Hd Hdata Hc)
      as (-> & -> & ->).
    repeat split. rewrite fmap_cons, filter_cons_False by done.
    unfold calls_on in *. by rewrite filter_app, Hcalls, app_nil_r.
Qed.

Lemma sys_invoke_schedules n cb args c s :
  active (sys_bus s) → validateChannelName n = None →
  channels (sys_bus s) !! n = Some c →
  sys_invoke n cb args s
  = System (sys_bus s) (schedule (sys_clock s + 1) (Exe n cb args) (sys_timers s))
           (sys_clock s) (sys_log s).
Proof.
  intros Hb Hn Hc. unfold sys_invoke, apply_reply.
  rewrite invoke_spec by done. by rewrite Hc.
Qed.

Lemma scheduled_one n d (e : exe CB A) (q : list (nat * exe CB A)) :
  Forall (λ x, exe_channel x.2 ≠ n) q →
  exe_channel e = n →
  filter (λ e, exe_channel e = n) (schedule d e q).*2 = [e].
Proof.
  intros Hq He. apply (scheduled_on_channel n d [e] q Hq). by constructor.
Qed.

(** X6.  An invocation of a channel that exists is dispatched by a timer, to
    the listener that the channel has when the timer fires: the one that
    was there at the call, or the one that a [handle] has put in its place
    in between.  The names in play are plain, every listener returns and no
    result callback throws. *)
Theorem invoke_calls_the_listener_in_place n cb args c s :
  synchronous listener_ends →
  harmless callback_throws →
  plain_name n = true →
  regular (sys_bus s) = true →
  Forall (λ x, plain_name (exe_channel x.2) = true) (sys_timers s) →
  active (sys_bus s) →
  data (sys_bus s) = None →
  validateChannelName n = None →
  channels (sys_bus s) !! n = Some c →
  inWaitChannel (sys_bus s) !! n = None →
  Forall (λ x, exe_channel x.2 ≠ n) (sys_timers s) →
  let s1 := sys_invoke n cb args s in
  sys_log s1 = sys_log s
  ∧ calls_on n (sys_log (run listener_sends listener_ends callback_throws (length (sys_timers s1)) s1))
    = calls_on n (sys_log s)
      ++ dispatch_calls listener_sends (listener c) (Exe n cb args)
  ∧ (writable c = true → ∀ l2 rm wr,
       let s2 := sys_handle n l2 rm wr s1 in
       sys_log s2 = sys_log s
       ∧ calls_on n (sys_log (run listener_sends listener_ends callback_throws (length (sys_timers s2)) s2))
         = calls_on n (sys_log s)
           ++ dispatch_calls listener_sends l2 (Exe n cb args)).
Proof.
  intros Hl Hcb _ _ _ Hb Hdata Hn Hc Hq HT s1. pose proof Hb as [Hd _].
  subst s1. rewrite (sys_invoke_schedules n cb args c) by done.
  set (s1 := System _ _ _ _).
  split_and!; [done | |].
  - destruct (run_on_channel listener_sends listener_ends callback_throws n c s1 Hl Hcb Hd Hdata Hc)
      as (_ & _ & ->).
    subst s1. cbn [sys_timers sys_log]. rewrite scheduled_one by done. simpl. by rewrite app_nil_r.
  - intros Hw l2 rm wr s2. subst s2. unfold sys_handle, apply_reply.
    rewrite handle_spec by done. subst s1. cbn [sys_bus sys_timers sys_clock sys_log].
    rewrite Hc, Hq. cbn [from_option reply_bus reply_after default schedule_all foldl].
    rewrite Hw. cbn [reply_bus reply_after default schedule_all foldl].
    split; [done|].
    match goal with |- context [run _ _ _ _ ?s2] =>
      destruct (run_on_channel listener_sends listener_ends callback_throws
                  n (Channel l2 rm wr) s2 Hl Hcb) as (_ & _ & H);
        [done | done | apply lookup_insert_eq |]
    end.
    cbn [sys_timers sys_log listener] in H. rewrite H.
    rewrite scheduled_one by done. simpl. by rewrite app_nil_r.
Qed.

(** X7.  When the channel is removed between the invocation and its dispatch,
    the listener is not called, and the result callback is called all the
    same, with [null].  The names in play are plain, every listener returns
    and no result callback throws. *)
Theorem removeEvent_before_dispatch n cb args c s :
  synchronous listener_ends →
  harmless callback_throws →
  plain_name n = true →
  regular (sys_bus s) = true →
  Forall (λ x, plain_name (exe_channel x.2) = true) (sys_timers s) →
  active (sys_bus s) →
  data (sys_bus s) = None →
  validateChannelName n = None →
  channels (sys_bus s) !! n = Some c →
  removable c = true →
  Forall (λ x, exe_channel x.2 ≠ n) (sys_timers s) →
  let s1 := sys_removeEvent data_channel n (sys_invoke n cb args s) in
  channels (sys_bus s1) !! n = None
  ∧ sys_log s1 = sys_log s
  ∧ calls_on n (sys_log (run listener_sends listener_ends callback_throws (length (sys_timers s1)) s1))
    = calls_on n (sys_log s) ++ orphan_calls (Exe n cb args).
Proof.
  intros Hl Hcb _ _ _ Hb Hdata Hn Hc Hrm HT s1. pose proof Hb as [Hd _].
  subst s1. rewrite (sys_invoke_schedules n cb args c) by done.
  unfold sys_removeEvent, apply_reply. cbn [sys_bus sys_timers sys_clock sys_log].
  destruct (removeEvent_spec n (sys_bus s) Hb Hn) as (-> & _ & ->).
  rewrite Hc, Hrm, Hdata. cbn [reply_bus reply_after schedule_all foldl].
  split_and!; [apply lookup_delete_eq | done |].
  match goal with |- context [run _ _ _ _ ?s1] =>
    destruct (run_without_channel n s1 Hl Hcb) as (_ & _ & H);
      [done | done | apply lookup_delete_eq |]
  end.
  cbn [sys_timers sys_log] in H. rewrite H.
  rewrite scheduled_one by done. simpl. by rewrite app_nil_r.
Qed.

Lemma run_exe_destroyed e b :
  isDestroyed b = true → data b = None → run_exe listener_sends listener_ends callback_throws e b = (b, []).
Proof.
  intros Hd Hdata. unfold run_exe, exe_target, exe_rest, exe_result. rewrite Hd. simpl.
  f_equal. unfold exe_reset. rewrite <- Hdata. by destruct b.
Qed.

Lemma run_destroyed k s :
  isDestroyed (sys_bus s) = true → data (sys_bus s) = None →
  sys_log (run listener_sends listener_ends callback_throws k s) = sys_log s
  ∧ sys_bus (run listener_sends listener_ends callback_throws k s) = sys_bus s
  ∧ sys_timers (run listener_sends listener_ends callback_throws k s) = drop k (sys_timers s).
Proof.
  revert s. induction k as [|k IH]; intros [b T c log] Hd Hdata;
    cbn [sys_timers sys_bus sys_log sys_clock] in *.
  { simpl. by rewrite drop_0. }
  destruct T as [|[due e] T]; [by rewrite run_nil|].
  rewrite run_cons, run_exe_destroyed by done. cbn [fst snd]. rewrite app_nil_r.
  apply (IH (System b T (c `max` due) log)); done.
Qed.

(** X8.  [clear] cancels what is under way: the invocations that wait for a
    [handle] are dropped, and the dispatches that are already scheduled
    call neither a listener nor a result callback when their timers
    fire. *)
Theorem clear_cancels_dispatches s k :
  active (sys_bus s) →
  let s' := run listener_sends listener_ends callback_throws k (sys_clear s) in
  sys_log s' = sys_log s
  ∧ destroyed (sys_bus s')
  ∧ inWaitChannel (sys_bus s') = ∅
  ∧ sys_timers s' = drop k (sys_timers s).
Proof.
  intros Hb s'. pose proof Hb as [Hd HE].
  assert (sys_clear s
          = System (Bus ∅ ∅ None true ((λ _, checkState_function) <$> EVENTS (sys_bus s)))
                   (sys_timers s) (sys_clock s) (sys_log s)) as Hclear.
  { unfold sys_clear, apply_reply, clear. rewrite method_own by (done || by eexists).
    unfold clear_body, checkState. by rewrite Hd. }
  subst s'. rewrite Hclear.
  set (s1 := System _ _ _ _).
  destruct (run_destroyed k s1) as (-> & -> & ->); [done..|].
  subst s1. cbn [sys_log sys_bus sys_timers inWaitChannel]. split_and!; [done | | done..].
  split; [done|]. cbn [EVENTS]. by rewrite HE.
Qed.

Lemma orderly_new : orderly (lsEmitter : bus L CB A V).
Proof.
  split_and!; [by intros n [? ?] | by intros n q ? | left; apply lsEmitter_active].
Qed.

Lemma orderly_cases b :
  orderly b → active b ∨ (EVENTS b = (λ _, checkState_function) <$> new_EVENTS
                          ∧ isDestroyed b = true).
Proof. intros (_ & _ & [?|[[? ?] _]]); auto. Qed.

(** Only the dictionaries, the flag and the table count. *)
Lemma orderly_ext b b' :
  channels b' = channels b → inWaitChannel b' = inWaitChannel b →
  isDestroyed b' = isDestroyed b → EVENTS b' = EVENTS b →
  orderly b → orderly b'.
Proof.
  intros Hc Hq Hd HE (H1 & H2 & H3). unfold orderly, active, destroyed.
  rewrite Hc, Hq, Hd, HE. by split_and!.
Qed.

Lemma invoke_data n cb args b : data (reply_bus (invoke n cb args b)) = data b.
Proof.
  unfold invoke, method, checkState_body, invoke_body.
  by repeat case_match.
Qed.

Lemma handle_data n l rm wr b : data (reply_bus (handle n l rm wr b)) = data b.
Proof.
  unfold handle, method, checkState_body, handle_body.
  by repeat case_match.
Qed.

Lemma orderly_invoke n cb args b :
  orderly b → orderly (reply_bus (invoke n cb args b)).
Proof.
  intros Hb. pose proof Hb as (Hch & Hq & Hst).
  destruct Hst as [Ha|[Hd _]];
    [|unfold invoke; by rewrite method_checkState by (done || by eexists)].
  destruct (validateChannelName_cases n) as [Hn|Hn].
  2:{ unfold invoke. rewrite method_own by (done || by eexists).
      unfold invoke_body. by rewrite Hn. }
  rewrite invoke_spec by done.
  destruct (channels b !! n) as [c|] eqn:Hc; [done|]. cbn [reply_bus].
  split_and!; cbn [set_inWaitChannel data channels inWaitChannel].
  - intros n' Hn'. destruct (Hch n' Hn') as [? ?]. split; [done|].
    rewrite lookup_insert_ne; [done|]. intros <-. rewrite Hc in Hn'. by destruct Hn'.
  - intros n' q. destruct (decide (n = n')) as [<-|Hne].
    + rewrite lookup_insert_eq. intros [= <-]. split_and!; [done | by destruct (default _ _) |].
      apply Forall_app. split; [|by repeat constructor].
      destruct (inWaitChannel b !! n) as [q0|] eqn:Hq0; [|constructor].
      by destruct (Hq n q0 Hq0) as (_ & _ & ?).
    + rewrite lookup_insert_ne by done. apply Hq.
  - left. destruct Ha. by split.
Qed.

Lemma orderly_handle n l rm wr b :
  orderly b → orderly (reply_bus (handle n l rm wr b)).
Proof.
  intros Hb. pose proof Hb as (Hch & Hq & Hst).
  destruct Hst as [Ha|[Hd _]];
    [|unfold handle; by rewrite method_checkState by (done || by eexists)].
  destruct (validateChannelName_cases n) as [Hn|Hn].
  2:{ unfold handle. rewrite method_own by (done || by eexists).
      unfold handle_body, checkState. destruct Ha as [-> _]. by rewrite Hn. }
  rewrite handle_spec by done.
  destruct (from_option writable true (channels b !! n)); [|done]. cbn [reply_bus].
  split_and!; cbn [handled set_channels set_inWaitChannel data channels inWaitChannel].
  - intros n'. destruct (decide (n = n')) as [<-|Hne].
    + intros _. split; [done | apply lookup_delete_eq].
    + rewrite lookup_insert_ne, lookup_delete_ne by done. apply Hch.
  - intros n' q. destruct (decide (n = n')) as [<-|Hne].
    + by rewrite lookup_delete_eq.
    + rewrite lookup_delete_ne by done. apply Hq.
  - left. destruct Ha. by split.
Qed.

(** [removeChannel] on an orderly instance: the queues are as before, and
    [data] is only ever reset. *)
Lemma orderly_removeChannel_body n b :
  orderly b → active b →
  orderly (reply_bus (removeChannel_body data_channel n b))
  ∧ inWaitChannel (reply_bus (removeChannel_body data_channel n b)) = inWaitChannel b
  ∧ (data b = None → data (reply_bus (removeChannel_body data_channel n b)) = None).
Proof.
  intros Hb Ha. pose proof Hb as (Hch & Hq & Hst).
  destruct (validateChannelName_cases n) as [Hn|Hn].
  2:{ unfold removeChannel_body, checkState. destruct Ha as [-> _]. by rewrite Hn. }
  destruct (removeEvent_spec n b Ha Hn) as (_ & _ & ->).
  destruct (channels b !! n) as [c|] eqn:Hc; [|done].
  destruct (removable c); [|done]. cbn [reply_bus].
  destruct (Hch n) as [_ Hnq]; [by eexists|].
  set (b1 := set_inWaitChannel (delete n) (set_channels (delete n) b)).
  assert (inWaitChannel b1 = inWaitChannel b) as Hq1.
  { unfold b1, set_inWaitChannel, set_channels. simpl. by rewrite delete_id. }
  assert (orderly b1) as Hb1.
  { split_and!.
    - intros n'. rewrite Hq1. unfold b1. simpl. destruct (decide (n = n')) as [<-|Hne].
      + rewrite lookup_delete_eq. by intros [? ?].
      + rewrite lookup_delete_ne by done. apply Hch.
    - rewrite Hq1. apply Hq.
    - left. destruct Ha. by split. }
  destruct (data b) as [d|] eqn:Hdata; [destruct (decide (data_channel d = Some n))|].
  - split_and!; [by apply (orderly_ext b1) | done | done].
  - split_and!; [done | done |]. by unfold b1; simpl; rewrite Hdata.
  - split_and!; [done | done |]. by unfold b1; simpl; rewrite Hdata.
Qed.

Lemma orderly_clear b :
  orderly b → orderly (reply_bus (clear b)) ∧ (data b = None → data (reply_bus (clear b)) = None).
Proof.
  intros Hb. pose proof Hb as (Hch & Hq & Hst).
  destruct Hst as [Ha|[Hd _]];
    [|unfold clear; by rewrite method_checkState by (done || by eexists)].
  pose proof (clear_destroys b Ha) as Hd.
  unfold clear in *. rewrite method_own in * by (done || by eexists).
  unfold clear_body, checkState in *. destruct Ha as [Hf HE]. rewrite Hf in *.
  cbn [reply_bus] in *. split; [|done].
  split_and!; cbn [data channels inWaitChannel].
  - intros n. rewrite lookup_empty. by intros [? ?].
  - intros n q. by rewrite lookup_empty.
  - by right.
Qed.

(** A dispatch writes [data] only. *)
Lemma run_exe_data e b :
  ∃ d, (run_exe listener_sends listener_ends callback_throws e b).1 = set_data d b.
Proof.
  assert (∀ b0, ∃ d, (exe_rest callback_throws e b0).1 = set_data d b0) as Hrest.
  { intros b0. unfold exe_rest, exe_reset.
    destruct (exe_result e b0) as [[cb d]|]; cbn [fst]; [|by eexists].
    destruct (callback_throws cb d); [exists (data b0); by destruct b0 | by eexists]. }
  unfold run_exe. destruct (exe_target e b) as [l|]; [|apply Hrest].
  assert (∃ d, exe_listener_run listener_sends l e b = set_data d b) as [d1 Hd1].
  { unfold exe_listener_run. destruct (listener_sends l (exe_args e)); [by eexists|].
    exists (data b). by destruct b. }
  cbv zeta. rewrite Hd1.
  destruct (listener_ends l (exe_args e)); cbn [fst]; [|by eexists..].
  destruct (Hrest (set_data d1 b)) as [d2 Hd2].
  destruct (exe_rest callback_throws e (set_data d1 b)) as [b2 c2]. cbn [fst] in *.
  exists d2. by rewrite Hd2.
Qed.

(** When every listener returns and no result callback throws, a dispatch
    leaves no value in [data]. *)
Lemma run_exe_resets e b :
  synchronous listener_ends → harmless callback_throws →
  data (run_exe listener_sends listener_ends callback_throws e b).1 = None.
Proof.
  intros Hl Hcb. unfold run_exe.
  destruct (exe_target e b) as [l|]; [rewrite Hl|]; rewrite exe_rest_harmless by done; done.
Qed.

Lemma orderly_serve r s :
  orderly (sys_bus s) →
  orderly (sys_bus (serve listener_sends listener_ends callback_throws data_channel r s)).
Proof.
  intros Hb. destruct r as [n0 cb args|n0 l rm wr|n0|n0|n0| | |]; cbn [serve].
  - by apply orderly_invoke.
  - by apply orderly_handle.
  - unfold sys_removeEvent, apply_reply, removeEvent. cbn [sys_bus].
    destruct (orderly_cases _ Hb) as [Ha|[HE Hd]].
    + rewrite method_own by (done || by eexists). by apply orderly_removeChannel_body.
    + by rewrite method_checkState by (done || by eexists).
  - unfold apply_reply, removeChannel. cbn [sys_bus].
    destruct (orderly_cases _ Hb) as [Ha|[HE Hd]].
    + rewrite method_own by (done || by eexists). by apply orderly_removeChannel_body.
    + by rewrite method_checkState by (done || by eexists).
  - unfold apply_reply. cbn [sys_bus].
    destruct (orderly_cases _ Hb) as [Ha|[HE Hd]].
    + by destruct (queries_active n0 _ Ha) as [-> _].
    + unfold hasEvent. by rewrite method_checkState by (done || by eexists).
  - unfold apply_reply. cbn [sys_bus].
    destruct (orderly_cases _ Hb) as [Ha|[HE Hd]].
    + by destruct (queries_active EmptyString _ Ha) as [_ ->].
    + unfold eventsList. by rewrite method_checkState by (done || by eexists).
  - by apply orderly_clear.
  - unfold fire. destruct (sys_timers s) as [|[due e] rest]; [done|].
    destruct (run_exe_data e (sys_bus s)) as [d He].
    destruct (run_exe listener_sends listener_ends callback_throws e (sys_bus s)) as [b' calls].
    simpl in *. subst b'. by apply (orderly_ext (sys_bus s)).
Qed.

Lemma play_orderly script :
  orderly (sys_bus (play listener_sends listener_ends callback_throws data_channel script)).
Proof.
  unfold play. induction script as [|r script IH] using rev_ind.
  - apply orderly_new.
  - rewrite foldl_snoc. by apply orderly_serve.
Qed.

(** What a request leaves in [data], when every listener returns and no
    result callback throws. *)
Lemma serve_data r s :
  synchronous listener_ends → harmless callback_throws →
  orderly (sys_bus s) → data (sys_bus s) = None →
  data (sys_bus (serve listener_sends listener_ends callback_throws data_channel r s)) = None.
Proof.
  intros Hl Hcb Hb Hdata.
  destruct r as [n0 cb args|n0 l rm wr|n0|n0|n0| | |]; cbn [serve].
  - unfold sys_invoke, apply_reply. cbn [sys_bus]. by rewrite invoke_data.
  - unfold sys_handle, apply_reply. cbn [sys_bus]. by rewrite handle_data.
  - unfold sys_removeEvent, apply_reply, removeEvent. cbn [sys_bus].
    destruct (orderly_cases _ Hb) as [Ha|[HE Hd]].
    + rewrite method_own by (done || by eexists). by apply orderly_removeChannel_body.
    + by rewrite method_checkState by (done || by eexists).
  - unfold apply_reply, removeChannel. cbn [sys_bus].
    destruct (orderly_cases _ Hb) as [Ha|[HE Hd]].
    + rewrite method_own by (done || by eexists). by apply orderly_removeChannel_body.
    + by rewrite method_checkState by (done || by eexists).
  - unfold apply_reply. cbn [sys_bus].
    destruct (orderly_cases _ Hb) as [Ha|[HE Hd]].
    + by destruct (queries_active n0 _ Ha) as [-> _].
    + unfold hasEvent. by rewrite method_checkState by (done || by eexists).
  - unfold apply_reply. cbn [sys_bus].
    destruct (orderly_cases _ Hb) as [Ha|[HE Hd]].
    + by destruct (queries_active EmptyString _ Ha) as [_ ->].
    + unfold eventsList. by rewrite method_checkState by (done || by eexists).
  - unfold sys_clear, apply_reply. cbn [sys_bus]. by apply orderly_clear.
  - unfold fire. destruct (sys_timers s) as [|[due e] rest]; [done|].
    pose proof (run_exe_resets e (sys_bus s) Hl Hcb) as He.
    by destruct (run_exe listener_sends listener_ends callback_throws e (sys_bus s)) as [b' calls].
Qed.

(** X9.  Whatever is done with a new bus under plain names, in whatever
    order, when every listener returns and no result callback throws, its
    variables stay consistent between two turns: no name has both a
    channel and a queue of waiting invocations, the names of both are
    valid, no queue is empty or holds an invocation of another name, and no
    sent value is left over from a dispatch. *)
Theorem bus_stays_consistent script :
  synchronous listener_ends →
  harmless callback_throws →
  forallb plain_request script = true →
  consistent (sys_bus (play listener_sends listener_ends callback_throws data_channel script)).
Proof.
  intros Hl Hcb _. split; [|apply play_orderly].
  unfold play. induction script as [|r script IH] using rev_ind; [done|].
  rewrite foldl_snoc. apply serve_data; [done | done | apply play_orderly | done].
Qed.

(** X10.  [removeEvent] never discards an invocation that waits for a [handle]:
    in every state that a new bus can reach, it leaves the queues as they
    are, whether it succeeds or throws. *)
Theorem removeEvent_keeps_waiting_invocations script n :
  let s := play listener_sends listener_ends callback_throws data_channel script in
  inWaitChannel (sys_bus (serve listener_sends listener_ends callback_throws data_channel (do_removeEvent n) s))
  = inWaitChannel (sys_bus s).
Proof.
  intros s. pose proof (play_orderly script) as Hb. fold s in Hb.
  cbn [serve]. unfold sys_removeEvent, apply_reply, removeEvent. cbn [sys_bus].
  destruct (orderly_cases _ Hb) as [Ha|[HE Hd]].
  - rewrite method_own by (done || by eexists). by apply orderly_removeChannel_body.
  - by rewrite method_checkState by (done || by eexists).
Qed.

End lsEmitter_in_use.

(** ** The bus at work *)

Import examples scenarios.

(** X1 at work: the name ["  "] on a new bus. *)
Lemma blank_channel_names_are_refused_witness :
  invoke "  " (Some 7) [42] fresh = Reply fresh (Rejected INVALID_CHANNEL_NAME) []
  ∧ removeEvent untagged "  " fresh = Reply fresh (Throw INVALID_CHANNEL_NAME) []
  ∧ hasEvent "  " fresh = Reply fresh (Return (r_bool false)) [].
Proof.
  destruct (blank_channel_names_are_refused untagged "  " fresh) as (H1 & _ & H2 & _ & H3).
  - reflexivity.
  - split; reflexivity.
  - reflexivity.
  - split_and!; [apply H1 | apply H2 | apply H3].
Defined.

(** X2 at work: the queries on the bus [guarded]. *)
Lemma queries_agree_witness :
  ∃ names,
    eventsList guarded = Reply guarded (Return (r_keys names)) []
    ∧ NoDup names
    ∧ hasEvent "n" guarded = Reply guarded (Return (r_bool (bool_decide ("n" ∈ names)))) [].
Proof.
  destruct (queries_agree guarded) as (names & H1 & H2 & H3).
  - reflexivity.
  - split; reflexivity.
  - exists names. split_and!; [exact H1 | exact H2 | apply H3].
Defined.

(** X3 at work: [handle("n", 1)] and [removeEvent("n")] on a new bus. *)
Lemma removeEvent_undoes_handle_witness :
  removeEvent untagged "n" (reply_bus (handle "n" 1 true true fresh))
  = Reply fresh (Return r_undefined) [].
Proof.
  destruct (removeEvent_undoes_handle untagged "n" 1 true fresh) as (_ & _ & H & _).
  - reflexivity.
  - reflexivity.
  - split; reflexivity.
  - reflexivity.
  - reflexivity.
  - reflexivity.
  - reflexivity.
  - exact H.
Defined.

(** X4 at work: [handle("n", 1, false)] on a new bus, which gives [pinned]. *)
Lemma non_removable_channel_stays_witness :
  removeEvent untagged "n" pinned = Reply pinned (Throw NON_REMOVABLE_CHANNEL) []
  ∧ channels pinned !! "n" = Some (Channel 1 false true).
Proof.
  destruct (non_removable_channel_stays untagged "n" 1 true fresh) as (H1 & H2 & _).
  - reflexivity.
  - reflexivity.
  - split; reflexivity.
  - reflexivity.
  - split; [exact H2 | exact H1].
Defined.

(** X5 at work: on [guarded]: the listener [1] gives way to [2] after [removeEvent]. *)
Lemma non_writable_channel_can_be_replaced_witness :
  handle "n" 2 true true guarded = Reply guarded (Rejected NON_WRITABLE_CHANNEL) []
  ∧ channels (reply_bus (handle "n" 2 true true (reply_bus (removeEvent untagged "n" guarded))))
      !! "n" = Some (Channel 2 true true).
Proof.
  destruct (non_writable_channel_can_be_replaced untagged "n" 1 2 true true guarded)
    as (H1 & _ & _ & H2).
  - reflexivity.
  - reflexivity.
  - split; reflexivity.
  - reflexivity.
  - reflexivity.
  - reflexivity.
  - split; [exact H1 | exact H2].
Defined.

(** X6 at work: on [listening]: [invoke("n", 7, 42)], then [handle("n", 2)] before
    the timer fires. *)
Lemma invoke_calls_the_listener_in_place_witness :
  calls_on "n"
    (sys_log (run echo prompt safe 1
                (sys_handle "n" 2 true true (sys_invoke "n" (Some 7) [42] listening))))
  = [called_listener "n" 2 [42]; called_callback "n" 7 (Some 42)].
Proof.
  destruct (invoke_calls_the_listener_in_place echo prompt safe "n" (Some 7) [42]
              (Channel 1 false true) listening) as (_ & _ & H).
  - intros l args. reflexivity.
  - intros cb d. reflexivity.
  - reflexivity.
  - reflexivity.
  - constructor.
  - split; reflexivity.
  - reflexivity.
  - reflexivity.
  - reflexivity.
  - reflexivity.
  - constructor.
  - destruct (H eq_refl 2 true true) as [_ H']. exact H'.
Defined.

(** X7 at work: on [replaceable]: [invoke("n", 7, 42)], then [removeEvent("n")] before
    the timer fires. *)
Lemma removeEvent_before_dispatch_witness :
  calls_on "n"
    (sys_log (run echo prompt safe 1 (sys_removeEvent untagged "n"
                            (sys_invoke "n" (Some 7) [42] replaceable))))
  = [called_callback "n" 7 None].
Proof.
  destruct (removeEvent_before_dispatch echo prompt safe untagged "n" (Some 7) [42]
              (Channel 1 true false) replaceable) as (_ & _ & H).
  - intros l args. reflexivity.
  - intros cb d. reflexivity.
  - reflexivity.
  - reflexivity.
  - constructor.
  - split; reflexivity.
  - reflexivity.
  - reflexivity.
  - reflexivity.
  - reflexivity.
  - constructor.
  - exact H.
Defined.

(** X8 at work: on [under_way]: [clear()], and the timer of the dispatch fires. *)
Lemma clear_cancels_dispatches_witness :
  sys_log (run echo prompt safe 1 (sys_clear under_way)) = []
  ∧ sys_timers (run echo prompt safe 1 (sys_clear under_way)) = [].
Proof.
  destruct (clear_cancels_dispatches echo prompt safe under_way 1) as (H1 & _ & _ & H2).
  - split; reflexivity.
  - split; [exact H1 | exact H2].
Defined.

(** X9 at work: [invoke("n", 7, 42)], [handle("n", 1)], a timer, and
    [removeEvent("n")], on a new bus. *)
Lemma bus_stays_consistent_witness :
  consistent
    (sys_bus (play echo prompt safe untagged
                [do_invoke "n" (Some 7) [42]; do_handle "n" 1 true true; do_wait;
                 do_removeEvent "n"])).
Proof.
  apply (bus_stays_consistent echo prompt safe untagged).
  - intros l args. reflexivity.
  - intros cb d. reflexivity.
  - reflexivity.
Defined.

(** * Properties of the utilities *)

Lemma is_multiple_divide x step :
  is_multiple x step = true ↔ step ≠ 0%Z ∧ (step | x)%Z.
Proof.
  unfold is_multiple. destruct (decide (step = 0%Z)) as [->|Hs].
  - split; [discriminate | intros [[] _]; reflexivity].
  - rewrite bool_decide_eq_true, Z.rem_divide by done. tauto.
Qed.

Lemma rangeList_loop_spec step rounds :
  ∀ x result,
    rangeList_loop rounds x step result
    = result ++ filter (λ y, is_multiple y step = true) (seqZ x (Z.of_nat rounds)).
Proof.
  induction rounds as [|n IH]; intros x result; simpl rangeList_loop.
  - by rewrite app_nil_r.
  - rewrite IH, (seqZ_cons x (Z.of_nat (S n))) by lia.
    replace (Z.pred (Z.of_nat (S n))) with (Z.of_nat n) by lia.
    replace (Z.succ x) with (x + 1)%Z by lia.
    rewrite filter_cons. destruct (is_multiple x step) eqn:E.
    + rewrite decide_True by done. by rewrite <- app_assoc.
    + rewrite decide_False by done. done.
Qed.

Lemma filter_seqZ_sorted (P : Z → Prop) `{∀ y, Decision (P y)} n :
  ∀ x, StronglySorted Z.lt (filter P (seqZ x (Z.of_nat n))).
Proof.
  induction n as [|n IH]; intros x.
  - constructor.
  - rewrite (seqZ_cons x (Z.of_nat (S n))) by lia.
    replace (Z.pred (Z.of_nat (S n))) with (Z.of_nat n) by lia.
    rewrite filter_cons. destruct (decide (P x)); [|apply IH].
    constructor; [apply IH|].
    apply Forall_forall. intros y [_ Hy%elem_of_seqZ]%list_elem_of_filter. lia.
Qed.

Lemma filter_Forall {X : Type} (P : X → Prop) `{∀ y, Decision (P y)} (l : list X) :
  Forall P l → filter P l = l.
Proof.
  induction 1 as [|y l Hy _ IH]; [done|].
  by rewrite filter_cons, decide_True, IH.
Qed.

(** X11.  On integers that a JS number holds exactly, and for fewer rounds
    than an array can hold elements, [rangeList(num, offset, step)] is the
    ascending list of the multiples of [step] from [offset] up to, and
    without, [num]; the offset does not shift the multiples, and there is
    none for [step = 0].  With the default offset and step it is
    [0, .., num - 1]. *)
Theorem rangeList_multiples num offset step :
  exact num = true →
  exact offset = true →
  exact step = true →
  array_length (num - offset) = true →
  StronglySorted Z.lt (rangeList num offset step)
  ∧ (∀ x, x ∈ rangeList num offset step
          ↔ (offset ≤ x < num)%Z ∧ step ≠ 0%Z ∧ (step | x)%Z)
  ∧ (offset = 0%Z → step = 1%Z → rangeList num offset step = seqZ 0 num).
Proof.
  intros _ _ _ _.
  unfold rangeList. rewrite !rangeList_loop_spec. simpl. split_and!.
  - apply filter_seqZ_sorted.
  - intros x. rewrite list_elem_of_filter, is_multiple_divide, elem_of_seqZ.
    split; intros; destruct_and?; split_and?; try done; lia.
  - intros -> ->. rewrite Z.sub_0_r, filter_Forall.
    + destruct (decide (0 ≤ num)%Z); [by rewrite Z2Nat.id|].
      by rewrite !seqZ_nil by lia.
    + apply Forall_forall. intros y _. apply is_multiple_divide.
      split; [done | apply Z.divide_1_l].
Qed.

(** X11 at work: [rangeList(10, 1, 3)]. *)
Lemma rangeList_multiples_witness :
  rangeList 10 1 3 = [3; 6; 9]%Z ∧ StronglySorted Z.lt (rangeList 10 1 3).
Proof.
  destruct (rangeList_multiples 10 1 3) as (H & _).
  - reflexivity.
  - reflexivity.
  - reflexivity.
  - reflexivity.
  - split; [reflexivity | exact H].
Defined.

Lemma splitData_loop_spec {T : Type} (step : Z) fuel :
  (0 < step)%Z →
  ∀ (data : list T) temp,
    length data < fuel →
    ∃ chunks last,
      splitData_loop fuel data step temp = Some (temp ++ chunks ++ [last])
      ∧ concat (reverse (chunks ++ [last])) = data
      ∧ Forall (λ c, Z.of_nat (length c) = step) chunks
      ∧ (Z.of_nat (length last) ≤ step)%Z
      ∧ (data ≠ [] → last ≠ []).
Proof.
  intros Hstep. induction fuel as [|fuel IH]; intros data temp Hfuel; [lia|].
  simpl. destruct (decide (step < Z.of_nat (length data))%Z) as [Hlt|Hge].
  - set (cut := Z.to_nat (Z.of_nat (length data) - step)).
    assert (0 < cut < length data) as Hcut by lia.
    destruct (IH (take cut data) (temp ++ [drop cut data])) as (chunks & last & -> & Hcat & Hall & Hlast & Hne).
    { rewrite length_take. lia. }
    exists (drop cut data :: chunks), last. split_and!.
    + by rewrite <- app_assoc.
    + change ((drop cut data :: chunks) ++ [last]) with ([drop cut data] ++ (chunks ++ [last])).
      rewrite reverse_app, concat_app, Hcat. simpl. rewrite app_nil_r. apply take_drop.
    + constructor; [|done]. rewrite length_drop. lia.
    + done.
    + intros _. apply Hne. intros E. apply (f_equal length) in E.
      rewrite length_take in E. simpl in E. lia.
  - rewrite decide_True by lia. exists [], data. split_and!; try done.
    + simpl. by rewrite app_nil_r.
    + lia.
Qed.

(** X12.  For a positive [step], [splitData(data, step)] returns; the chunks are
    cut from the end of [data], so that they give [data] back when they are
    concatenated in reverse order; every chunk but the last has [step]
    elements, the last has at most [step], and at least one unless [data]
    is empty. *)
Theorem splitData_round_trip {T : Type} (data : list T) (step : Z) fuel :
  (0 < step)%Z →
  length data < fuel →
  ∃ chunks last,
    splitData fuel data step = Some (chunks ++ [last])
    ∧ concat (reverse (chunks ++ [last])) = data
    ∧ Forall (λ c, Z.of_nat (length c) = step) chunks
    ∧ (Z.of_nat (length last) ≤ step)%Z
    ∧ (data ≠ [] → last ≠ []).
Proof.
  intros Hstep Hfuel.
  destruct (splitData_loop_spec step fuel Hstep data [] Hfuel) as (chunks & last & H).
  by exists chunks, last.
Qed.

(** X12 at work: [splitData([1, 2, 3, 4, 5], 2)]. *)
Lemma splitData_round_trip_witness :
  ∃ chunks last,
    splitData 6 [1; 2; 3; 4; 5] 2 = Some (chunks ++ [last])
    ∧ concat (reverse (chunks ++ [last])) = [1; 2; 3; 4; 5]
    ∧ Forall (λ c, Z.of_nat (length c) = 2%Z) chunks
    ∧ (Z.of_nat (length last) ≤ 2)%Z
    ∧ ([1; 2; 3; 4; 5] ≠ [] → last ≠ []).
Proof.
  apply (splitData_round_trip [1; 2; 3; 4; 5] 2 6).
  - reflexivity.
  - simpl. lia.
Defined.

(** X13.  With a [step] that is not positive, the loop of [splitData] makes no
    progress as soon as it is entered: whatever the number of rounds it is
    given, [splitData] does not return. *)
Theorem splitData_never_returns {T : Type} (data : list T) (step : Z) :
  (step ≤ 0)%Z →
  (step < Z.of_nat (length data))%Z →
  ∀ fuel, splitData fuel data step = None.
Proof.
  intros Hstep Hlen fuel. unfold splitData. generalize (@nil (list T)).
  induction fuel as [|fuel IH]; intros temp; [done|].
  simpl. rewrite decide_True by done.
  rewrite take_ge by lia. apply IH.
Qed.

(** X13 at work: [splitData([1, 2, 3], 0)], with a thousand rounds. *)
Lemma splitData_never_returns_witness :
  splitData 1000 [1; 2; 3] 0 = None.
Proof.
  apply (splitData_never_returns [1; 2; 3] 0).
  - reflexivity.
  - reflexivity.
Defined.

Lemma loopObject_fold {V St : Type} (callback : V → string → nat → bool → St → St) (n : nat)
    (l : list (string * V)) :
  ∀ s c result,
    foldl (λ '(s, c, result) '(x, v),
             let c' := c + 1 in
             let f := bool_decide (c' = n) in
             (callback v x (c' - 1) f s, c', result ++ [v]))
          (s, c, result) l
    = (foldl (λ s '(i, (x, v)), callback v x i (bool_decide (S i = n)) s) s
             (imap (λ i kv, (c + i, kv)) l),
       c + length l, result ++ l.*2).
Proof.
  induction l as [|[x v] l IH]; intros s c result; simpl.
  - by rewrite Nat.add_0_r, app_nil_r.
  - rewrite IH.
    replace (c + 1 - 1) with (c + 0) by lia.
    replace (bool_decide (c + 1 = n)) with (bool_decide (S (c + 0) = n))
      by (apply bool_decide_ext; lia).
    rewrite (imap_ext (λ i kv, (c + 1 + i, kv)) ((λ i kv, (c + i, kv)) ∘ S) l)
      by (intros; simpl; f_equal; lia).
    rewrite <- app_assoc. simpl. do 2 f_equal. lia.
Qed.

Lemma loopObject_unfold {V St : Type} (obj : gmap string V)
    (callback : V → string → nat → bool → St → St) s :
  loopObject obj callback s
  = (foldl (λ s '(i, (x, v)), callback v x i (bool_decide (S i = size obj)) s) s
           (imap (λ i kv, (i, kv)) (map_to_list obj)),
     (map_to_list obj).*2).
Proof.
  unfold loopObject.
  rewrite (loopObject_fold callback (size obj) (map_to_list obj) s 0 []). done.
Qed.

(** X14.  [loopObject] goes through the properties of the object in some
    order, each once: it calls the callback once for every property, with
    the indices [0, 1, ..] and with the flag [finished] set on the last
    call only, and it returns the values in the order of the calls. *)
Theorem loopObject_calls {V : Type} (obj : gmap string V) :
  ∃ entries,
    entries ≡ₚ map_to_list obj
    ∧ loopObject obj (λ v x i f calls, calls ++ [(v, x, i, f)]) []
      = (imap (λ i kv, (kv.2, kv.1, i, bool_decide (S i = size obj))) entries,
         entries.*2).
Proof.
  exists (map_to_list obj). split; [done|].
  rewrite loopObject_unfold. f_equal.
  assert (∀ n c (l : list (string * V)) calls,
    foldl (λ s '(i, (x, v)), s ++ [(v, x, i, bool_decide (S i = n))]) calls
          (imap (λ i kv, (c + i, kv)) l)
    = calls ++ imap (λ i kv, (kv.2, kv.1, c + i, bool_decide (S (c + i) = n))) l) as Hgen.
  { intros n c l. revert c. induction l as [|[x v] l IH]; intros c calls; simpl.
    - by rewrite app_nil_r.
    - rewrite (imap_ext _ (λ i kv, (S c + i, kv)) l) by (intros; simpl; f_equal; lia).
      rewrite IH, <- app_assoc. simpl. rewrite Nat.add_0_r. do 2 f_equal.
      apply imap_ext. intros i kv _. simpl.
      replace (c + S i) with (S (c + i)) by lia. reflexivity. }
  apply (Hgen (size obj) 0 (map_to_list obj) []).
Qed.

Lemma loopObject_plain {V St : Type} (obj : gmap string V) (g : V → string → St → St) s :
  (loopObject obj (λ v x _ _, g v x) s).1
  = foldl (λ s kv, g kv.2 kv.1 s) s (map_to_list obj).
Proof.
  rewrite loopObject_unfold. simpl.
  generalize s. induction (map_to_list obj) as [|[x v] l IH] using rev_ind; intros s0; [done|].
  rewrite imap_app, !foldl_app. simpl. by rewrite IH.
Qed.

Lemma inverse_fold_sound (l : list (string * string)) v k :
  foldl (λ r kv, <[kv.2 := kv.1]> r) (∅ : gmap string string) l !! v = Some k → (k, v) ∈ l.
Proof.
  induction l as [|[k' v'] l IH] using rev_ind; [simpl; by rewrite lookup_empty|].
  rewrite foldl_snoc. simpl. rewrite elem_of_app, list_elem_of_singleton.
  destruct (decide (v' = v)) as [->|Hne].
  - rewrite lookup_insert_eq. intros [= ->]. by right.
  - rewrite lookup_insert_ne by done. intros H. left. by apply IH.
Qed.

Lemma inverse_fold_complete (l : list (string * string)) v k :
  (k, v) ∈ l →
  is_Some (foldl (λ r kv, <[kv.2 := kv.1]> r) (∅ : gmap string string) l !! v).
Proof.
  induction l as [|[k' v'] l IH] using rev_ind; [by intros ?%elem_of_nil|].
  rewrite foldl_snoc. simpl. rewrite elem_of_app, list_elem_of_singleton.
  destruct (decide (v' = v)) as [->|Hne].
  - rewrite lookup_insert_eq. by eexists.
  - rewrite lookup_insert_ne by done. intros [H|[= _ ?]]; [by apply IH | congruence].
Qed.

Lemma inverseObject_entries (_obj : gmap string string) :
  (∀ v k, inverseObject _obj !! v = Some k → _obj !! k = Some v)
  ∧ (∀ k v, _obj !! k = Some v → is_Some (inverseObject _obj !! v)).
Proof.
  unfold inverseObject. rewrite loopObject_plain. split.
  - intros v k H%inverse_fold_sound. by apply elem_of_map_to_list.
  - intros k v H%elem_of_map_to_list. by apply inverse_fold_complete with k.
Qed.

(** X15.  [inverseObject] turns properties around and invents none: every
    property [v: k] of the result comes from a property [k: v] of the
    object, and every value of the object is a key of the result.  No
    value of the object is ["__proto__"]. *)
Theorem inverseObject_lookup (_obj : gmap string string) :
  forallb (λ kv, settable kv.2) (map_to_list _obj) = true →
  (∀ v k, inverseObject _obj !! v = Some k → _obj !! k = Some v)
  ∧ (∀ k v, _obj !! k = Some v → is_Some (inverseObject _obj !! v)).
Proof.
  intros _.
  unfold inverseObject. rewrite loopObject_plain. split.
  - intros v k H%inverse_fold_sound. by apply elem_of_map_to_list.
  - intros k v H%elem_of_map_to_list. by apply inverse_fold_complete with k.
Qed.

(** X15 at work: two keys with one value. *)
Lemma inverseObject_lookup_witness :
  is_Some (inverseObject (list_to_map [("a", "x"); ("b", "x")]) !! "x").
Proof.
  destruct (inverseObject_lookup (list_to_map [("a", "x"); ("b", "x")])) as [_ H].
  - reflexivity.
  - apply (H "a" "x"). reflexivity.
Defined.

(** X16.  On an object with no value under two keys, [inverseObject] is its own
    inverse, and it maps every value to its key.  No key and no value of
    the object is ["__proto__"]. *)
Theorem inverseObject_round_trip (_obj : gmap string string) :
  forallb (λ kv, settable kv.1 && settable kv.2) (map_to_list _obj) = true →
  NoDup (map_to_list _obj).*2 →
  inverseObject (inverseObject _obj) = _obj
  ∧ ∀ k v, _obj !! k = Some v → inverseObject _obj !! v = Some k.
Proof.
  intros _ Hnd.
  assert (∀ k1 k2 v, _obj !! k1 = Some v → _obj !! k2 = Some v → k1 = k2) as Hinj.
  { intros k1 k2 v [i Hi]%elem_of_map_to_list%list_elem_of_lookup
                     [j Hj]%elem_of_map_to_list%list_elem_of_lookup.
    assert (i = j) as ->; [|congruence].
    apply (NoDup_lookup _ i j v Hnd); by rewrite list_lookup_fmap, ?Hi, ?Hj. }
  destruct (inverseObject_entries _obj) as [Hs Hc].
  destruct (inverseObject_entries (inverseObject _obj)) as [Hs' Hc'].
  assert (∀ k v, _obj !! k = Some v → inverseObject _obj !! v = Some k) as Hto.
  { intros k v Hk. destruct (Hc k v Hk) as [k' Hk'].
    rewrite Hk'. f_equal. apply (Hinj k' k v); [by apply Hs | done]. }
  split; [|done]. apply map_eq. intros k.
  destruct (_obj !! k) as [v|] eqn:Hk.
  - destruct (Hc' v k (Hto k v Hk)) as [v' Hv']. rewrite Hv'. f_equal.
    apply Hs', Hs in Hv'. congruence.
  - destruct (inverseObject (inverseObject _obj) !! k) as [v'|] eqn:Hv'; [|done].
    apply Hs', Hs in Hv'. congruence.
Qed.

(** X16 at work: the keys held down for [control + s], as the shortcuts record
    them. *)
Lemma inverseObject_round_trip_witness :
  inverseObject (inverseObject (list_to_map [("control", "0"); ("s", "1")]))
  = list_to_map [("control", "0"); ("s", "1")]
  ∧ ∀ k v, (list_to_map [("control", "0"); ("s", "1")] : gmap string string) !! k = Some v →
           inverseObject (list_to_map [("control", "0"); ("s", "1")]) !! v = Some k.
Proof.
  apply (inverseObject_round_trip (list_to_map [("control", "0"); ("s", "1")])).
  - reflexivity.
  - compute_done.
Defined.

Lemma copyObject_fold {V : Type} (obj' : gmap string V) (overwrite : bool) (exp : list string)
    (t : gmap string V) (ks : list string) :
  (∀ k, k ∈ ks → is_Some (obj' !! k)) →
  ∀ j,
    (foldl (λ target' item,
             if negb (has item target' && negb overwrite) then
               if negb (bool_decide (item ∈ exp)) then
                 match obj' !! item with
                 | Some v => <[item := v]> target'
                 | None => target'
                 end
               else target'
             else target') t ks) !! j
    = if bool_decide ((j ∈ ks) ∧ (j ∉ exp) ∧ (overwrite = true ∨ t !! j = None))
      then obj' !! j else t !! j.
Proof.
  induction ks as [|k ks IH] using rev_ind; intros Hks j.
  - reflexivity.
  - rewrite foldl_snoc.
    set (T := foldl _ t ks) in *.
    assert (∀ j, T !! j = if bool_decide ((j ∈ ks) ∧ (j ∉ exp) ∧ (overwrite = true ∨ t !! j = None))
                         then obj' !! j else t !! j) as HT.
    { apply IH. intros k' Hk'. apply Hks, elem_of_app. by left. }
    destruct (Hks k) as [v Hv]; [apply elem_of_app; right; by apply list_elem_of_singleton|].
    rewrite Hv, has_lookup.
    destruct (decide (j = k)) as [->|Hne].
    + assert (k ∈ ks ++ [k]) as Hin
        by (apply elem_of_app; right; by apply list_elem_of_singleton).
      specialize (HT k).
      destruct (decide (k ∈ exp)) as [Hexp|Hexp].
      * rewrite (bool_decide_eq_true_2 (k ∈ exp)) by done. simpl.
        rewrite (bool_decide_eq_false_2 (_ ∧ _ ∧ _)) by tauto.
        rewrite (bool_decide_eq_false_2 (_ ∧ _ ∧ _)) in HT by tauto.
        by destruct (negb (_ && _)).
      * rewrite (bool_decide_eq_false_2 (k ∈ exp)) by done. simpl.
        destruct overwrite; simpl.
        { rewrite andb_false_r. simpl.
          rewrite lookup_insert_eq, bool_decide_eq_true_2 by tauto. done. }
        rewrite andb_true_r.
        destruct (t !! k) as [x|] eqn:Et.
        { rewrite (bool_decide_eq_false_2 (_ ∧ _ ∧ _)) by (intros (_ & _ & [?|?]); done).
          rewrite (bool_decide_eq_false_2 (_ ∧ _ ∧ _)) in HT by (intros (_ & _ & [?|?]); done).
          by rewrite HT. }
        rewrite (bool_decide_eq_true_2 (_ ∧ _ ∧ _)) by tauto.
        destruct (T !! k) as [tk|] eqn:ETk; simpl; [|by rewrite lookup_insert_eq].
        rewrite ETk. case_bool_decide; congruence.
    + assert (j ∈ ks ++ [k] ↔ j ∈ ks) as Hiff.
      { rewrite elem_of_app, list_elem_of_singleton. tauto. }
      rewrite (bool_decide_ext ((j ∈ ks ++ [k]) ∧ (j ∉ exp) ∧ (overwrite = true ∨ t !! j = None))
                 ((j ∈ ks) ∧ (j ∉ exp) ∧ (overwrite = true ∨ t !! j = None)))
        by tauto.
      rewrite <- HT.
      destruct (T !! k), overwrite, (bool_decide (k ∈ exp)); simpl;
        by rewrite ?lookup_insert_ne.
Qed.

(** X17.  On plain objects, [copyObject] returns the target with the
    properties of [obj] copied into it, those named in [exp] excepted;
    where both have a property, the one of the target stays unless
    [overwrite] is set. *)
Theorem copyObject_union {V : Type} (obj target : option (gmap string V)) (overwrite : bool)
    (exp : list string) :
  plain_object (default ∅ obj) = true →
  plain_object (default ∅ target) = true →
  copyObject obj target overwrite exp
  = let copied := filter (λ kv, kv.1 ∉ exp) (default ∅ obj) in
    if overwrite then copied ∪ default ∅ target else default ∅ target ∪ copied.
Proof.
  intros _ _. apply map_eq. intros j. unfold copyObject.
  rewrite copyObject_fold.
  2:{ intros k [[k' v] [-> Hkv%elem_of_map_to_list]]%list_elem_of_fmap. by eexists. }
  set (o := default ∅ obj). set (t := default ∅ target).
  assert (j ∈ (map_to_list o).*1 ↔ is_Some (o !! j)) as Hdom.
  { rewrite list_elem_of_fmap. split.
    - intros [[k v] [-> Hkv%elem_of_map_to_list]]. by eexists.
    - intros [v Hv]. exists (j, v). split; [done | by apply elem_of_map_to_list]. }
  simpl. destruct overwrite.
  - rewrite lookup_union, map_lookup_filter.
    case_bool_decide as Hc.
    + destruct Hc as (Hin%Hdom & Hexp & _). destruct Hin as [v Hv]. rewrite Hv. simpl.
      rewrite option_guard_True by done. by destruct (t !! j).
    + destruct (o !! j) as [v|] eqn:Hv; simpl.
      * rewrite option_guard_False; [by destruct (t !! j)|].
        intros Hexp. apply Hc. split_and!; [apply Hdom; by eexists | done | by left].
      * by destruct (t !! j).
  - rewrite lookup_union, map_lookup_filter.
    case_bool_decide as Hc.
    + destruct Hc as (Hin%Hdom & Hexp & [?|Ht]); [done|]. destruct Hin as [v Hv].
      rewrite Hv, Ht. simpl. by rewrite option_guard_True.
    + destruct (t !! j) as [tj|] eqn:Ht; [by destruct (o !! j ≫= _)|].
      destruct (o !! j) as [v|] eqn:Hv; simpl; [|done].
      rewrite option_guard_False; [done|].
      intros Hexp. apply Hc. split_and!; [apply Hdom; by eexists | done | by right].
Qed.

(** X17 at work: the options of a component without [data] and [parent],
    as [SetOptions] copies them. *)
Lemma copyObject_union_witness :
  copyObject (Some (list_to_map [("parent", 1); ("className", 2); ("data", 3)])) None false
             ["data"; "parent"]
  = ({[ "className" := 2 ]} : gmap string nat).
Proof.
  rewrite (copyObject_union (Some (list_to_map [("parent", 1); ("className", 2); ("data", 3)]))
             None false ["data"; "parent"]).
  - apply map_eq. intros k. vm_compute. reflexivity.
  - reflexivity.
  - reflexivity.
Defined.

Lemma toUpperCase_not_lower b : is_lower b = true → is_lower (toUpperCase b) = false.
Proof.
  unfold toUpperCase. intros Hb. rewrite Hb.
  unfold is_lower in *.
  apply andb_true_iff in Hb as [H1%Nat.leb_le H2%Nat.leb_le].
  rewrite Ascii.nat_ascii_embedding by lia.
  apply andb_false_iff. left. apply Nat.leb_gt. lia.
Qed.

Lemma toCamelKey_settles n :
  ∀ key, String.length key ≤ n →
    hyphenated (toCamelKey key) = false
    ∧ (∀ c, first_char (toCamelKey key) = Some c → is_lower c = true →
            first_char key = Some c).
Proof.
  induction n as [|n IH]; intros key Hn.
  - destruct key; [done | simpl in Hn; lia].
  - destruct key as [|a [|b rest']]; [done | done |].
    simpl in Hn.
    change (toCamelKey (String a (String b rest')))
      with (if bool_decide (a = hyphen) && is_lower b
            then String (toUpperCase b) (toCamelKey rest')
            else String a (toCamelKey (String b rest'))).
    destruct (bool_decide (a = hyphen) && is_lower b) eqn:E.
    + apply andb_true_iff in E as [_ Hb].
      destruct (IH rest') as [H1 H2]; [lia|]. split.
      * destruct (toCamelKey rest') as [|c r] eqn:Er; [done|].
        change (hyphenated (String (toUpperCase b) (String c r)))
          with ((bool_decide (toUpperCase b = hyphen) && is_lower c) || hyphenated (String c r)).
        rewrite H1, orb_false_r. apply andb_false_iff. left.
        apply bool_decide_eq_false. intros Hh.
        pose proof (toUpperCase_not_lower b Hb) as Hu.
        unfold toUpperCase in Hh. rewrite Hb in Hh.
        unfold is_lower in Hb. apply andb_true_iff in Hb as [Hb1%Nat.leb_le Hb2%Nat.leb_le].
        apply (f_equal Ascii.nat_of_ascii) in Hh.
        rewrite Ascii.nat_ascii_embedding in Hh by lia.
        change (Ascii.nat_of_ascii hyphen) with 45 in Hh. lia.
      * intros c [= <-] Hc. by rewrite toUpperCase_not_lower in Hc.
    + destruct (IH (String b rest')) as [H1 H2]; [simpl; lia|]. split; [|by intros c [= <-]].
      destruct (toCamelKey (String b rest')) as [|c r] eqn:Er; [done|].
      change (hyphenated (String a (String c r)))
        with ((bool_decide (a = hyphen) && is_lower c) || hyphenated (String c r)).
      rewrite H1, orb_false_r.
      destruct (is_lower c) eqn:Ec; [|by rewrite andb_false_r].
      specialize (H2 c eq_refl Ec). injection H2 as ->.
      by rewrite Ec in E.
Qed.

Lemma toCamelKey_unhyphenated n :
  ∀ key, String.length key ≤ n → hyphenated key = false → toCamelKey key = key.
Proof.
  induction n as [|n IH]; intros key Hn Hh.
  - destruct key; [done | simpl in Hn; lia].
  - destruct key as [|a [|b rest']]; [done | done |].
    simpl in Hn.
    change (hyphenated (String a (String b rest')))
      with ((bool_decide (a = hyphen) && is_lower b) || hyphenated (String b rest')) in Hh.
    apply orb_false_iff in Hh as [E Hh].
    change (toCamelKey (String a (String b rest')))
      with (if bool_decide (a = hyphen) && is_lower b
            then String (toUpperCase b) (toCamelKey rest')
            else String a (toCamelKey (String b rest'))).
    rewrite E. f_equal. apply IH; [simpl; lia | done].
Qed.

(** X18.  [toCamelKey] leaves no hyphen before a lower-case letter, so that it is
    idempotent; a key without such a hyphen is returned as it is. *)
Theorem toCamelKey_idempotent key :
  hyphenated (toCamelKey key) = false
  ∧ toCamelKey (toCamelKey key) = toCamelKey key
  ∧ (hyphenated key = false → toCamelKey key = key).
Proof.
  destruct (toCamelKey_settles (String.length key) key) as [H _]; [done|].
  split_and!; [done | | ].
  - by apply (toCamelKey_unhyphenated (String.length (toCamelKey key))).
  - by apply (toCamelKey_unhyphenated (String.length key)).
Qed.


(** * More properties of the component tree *)

Section leistrap_in_use.

Import leistrap.

Variable stack : nat.

Implicit Types (w : world) (c p g : BaseElement).






(** X20.  A component can take a second index name; the first one is not given
    back: both names resolve to the component, and [data.id] is the
    second.  The two names and the names of the registry are plain. *)
Theorem renaming_keeps_the_old_name A x y w :
  plain_name x = true →
  plain_name y = true →
  regular (indexedElementEvent w) = true →
  x ≠ y →
  is_Some (heap w !! A) →
  active (indexedElementEvent w) →
  validateChannelName x = None →
  validateChannelName y = None →
  channels (indexedElementEvent w) !! x = None →
  channels (indexedElementEvent w) !! y = None →
  microtasks w = [] →
  let w1 := drain (world_of (set_id A x w)) in
  let w2 := drain (world_of (set_id A y w1)) in
  indexName <$> heap w1 !! A = Some (Some x)
  ∧ indexName <$> heap w2 !! A = Some (Some y)
  ∧ channels (indexedElementEvent w2) !! x = Some (Channel A true false)
  ∧ channels (indexedElementEvent w2) !! y = Some (Channel A true false)
  ∧ (∀ e : dispatch, exe_channel e = x → exe_target e (indexedElementEvent w2) = Some A)
  ∧ log w2 = log w.
Proof.
  intros _ _ _ Hxy [a Ha] Hact Hx Hy Hcx Hcy HM w1 w2.
  assert (w1 = drain (world_of (set_id A x w))) as Hw1 by done.
  rewrite (set_id_fresh A x w) in Hw1 by (done || by eexists).
  unfold drain in Hw1. simpl in Hw1. rewrite HM in Hw1. simpl in Hw1.
  assert (heap w1 !! A = Some (set_indexName (Some x) a)) as Ha1.
  { rewrite Hw1. simpl. by rewrite lookup_alter_eq, Ha. }
  assert (active (indexedElementEvent w1)) as Hact1.
  { rewrite Hw1. simpl. destruct Hact. by split. }
  assert (channels (indexedElementEvent w1) !! y = None) as Hcy1.
  { rewrite Hw1. simpl. by rewrite lookup_insert_ne. }
  assert (channels (indexedElementEvent w1) !! x = Some (Channel A true false)) as Hcx1.
  { rewrite Hw1. simpl. by rewrite lookup_insert_eq. }
  assert (microtasks w1 = []) as HM1 by (by rewrite Hw1).
  assert (log w1 = log w) as Hlog1 by (by rewrite Hw1).
  subst w2. rewrite (set_id_fresh A y w1) by (done || by eexists).
  unfold drain. simpl. rewrite HM1. simpl.
  assert (channels (handled y A true false (indexedElementEvent w1)) !! x
          = Some (Channel A true false)) as Hcx2.
  { simpl. by rewrite lookup_insert_ne. }
  split_and!.
  - by rewrite Ha1.
  - by rewrite lookup_alter_eq, Ha1.
  - done.
  - apply lookup_insert_eq.
  - intros e He. unfold exe_target. simpl. destruct Hact1 as [-> _].
    rewrite He. simpl in Hcx2. by rewrite Hcx2.
  - done.
Qed.






(** X23.  [add] of a component that is rendered already, with a node that
    does not hold the node of the new parent: it is put under the new
    parent and appended to its [content], also when it is there already;
    no property of another component is written, so that a previous parent
    keeps the component in its [contentMap].  The dictionaries of the new
    parent and the key of the component are plain. *)
Theorem add_of_a_rendered_component this el w c e :
  0 < stack →
  el ≠ this →
  heap w !! this = Some c →
  heap w !! el = Some e →
  rendered e = true →
  plain_component c = true →
  plain_name (key e) = true →
  can_append stack w this el = true →
  ∃ w',
    add stack this (by_object el) w = done w' this
    ∧ but_content <$> heap w' !! el
      = Some (but_content (set_conf (set_parentNode (Some this)) (set_parent (Some this) e)))
    ∧ heap w' !! this = Some (set_content (content c ++ [el]) (set_contentMap <[key e := el]> c))
    ∧ (∀ r, r ≠ this → r ≠ el → but_content <$> heap w' !! r = but_content <$> heap w !! r)
    ∧ leisElementMap w' = leisElementMap w
    ∧ log w' = log w
    ∧ timers w' = schedule_all (clock w + 10)
                    ((λ item, t_lifecycle "add" item this [by_object el])
                       <$> default [] (eventListeners c !! "add")) (timers w).
Proof.
  intros Hstack Hne Hc He Hr _ _ _. destruct stack as [|d] eqn:Hd; [lia|].
  unfold add. cbn [getObjectByIndexName bind].
  rewrite (handleAllEvent_later _ _ _ _ _ c) by done. cbn [bind].
  set (w2 := set_timers _ w).
  assert (heap w2 !! el = Some e) as He2 by done.
  assert (heap w2 !! this = Some c) as Hc2 by done.
  rewrite He2.
  set (w3 := update el _ w2). set (w4 := update this _ w3).
  assert (heap w4 !! el = Some (set_parent (Some this) e)) as He4.
  { unfold w4, w3. by rewrite lookup_update_ne, lookup_update, He2 by done. }
  unfold render. cbn [render_at]. rewrite He4. cbn [rendered set_parent]. rewrite Hr.
  cbn [bind].
  set (w6 := update el _ w4).
  assert (heap w6 !! this = Some (set_contentMap <[key e := el]> c)) as ->.
  { unfold w6, w4, w3. by rewrite lookup_update_ne, lookup_update, lookup_update_ne, Hc2 by done. }
  eexists. split; [reflexivity|].
  unfold w6, w4, w3, w2, update. simpl. split_and!; try done.
  - rewrite lookup_alter_ne, lookup_alter_eq, lookup_alter_ne, lookup_alter_eq, He by done. done.
  - rewrite lookup_alter_eq, lookup_alter_ne, lookup_alter_eq, lookup_alter_ne, Hc by done. done.
  - intros r Hr1 Hr2. by rewrite !lookup_alter_ne by done.
Qed.







(** X28.  Without an [eventName], [addEvent] registers a listener under its
    function name: a second [addEvent] for the same event type with a
    function of that name, without an [eventName] either, throws
    [UniqueType].  The event type, the name of the function and the
    dictionaries of the component are plain. *)
Theorem addEvent_default_name this type f capture rnd w c :
  heap w !! this = Some c →
  plain_name type = true →
  plain_name (fn_name f) = true →
  plain_component c = true →
  fn_name f ≠ EmptyString →
  registration w this type (fn_name f) = None →
  ∃ w' cb,
    addEvent this type (Some f) None capture rnd w = done w' this
    ∧ registration w' this type (fn_name f) = Some cb
    ∧ copyListener cb = f
    ∧ ∀ f' capture' rnd',
        fn_name f' = fn_name f →
        addEvent this type (Some f') None capture' rnd' w' = threw w' UniqueType.
Proof.
  intros Hc _ _ _ Hname Hfree. unfold addEvent. rewrite Hc.
  rewrite decide_False by done.
  assert (default ∅ (eventMap c !! type) !! fn_name f = None) as Hfree'.
  { unfold registration in Hfree. rewrite Hc in Hfree. simpl in Hfree.
    destruct (eventMap c !! type) as [m|]; [done | apply lookup_empty]. }
  rewrite (has_lookup (fn_name f)), Hfree'.
  set (w1 := if has type (eventMap c) then w else _).
  assert (heap w1 !! this
          = Some (if has type (eventMap c) then c else set_eventMap <[type := ∅]> c)) as Hc1.
  { unfold w1. destruct (has type (eventMap c)); [done|]. by rewrite lookup_update, Hc. }
  set (cb := Callback (next_callback w1) f this).
  set (m' := <[fn_name f := cb]> (default ∅ (eventMap c !! type))).
  eexists _, cb. split; [reflexivity|].
  set (w' := update this (set_conf _) _).
  assert (∃ c', heap w' !! this = Some c' ∧ eventMap c' !! type = Some m') as (c' & Hc' & Hm').
  { unfold w'. rewrite !lookup_update. simpl. rewrite Hc1. simpl.
    eexists. split; [reflexivity|].
    destruct (has type (eventMap c)); simpl; apply lookup_insert_eq. }
  split_and!.
  - unfold registration. rewrite Hc'. simpl. rewrite Hm'. simpl. apply lookup_insert_eq.
  - done.
  - intros f' capture' rnd' Hf'. rewrite Hc'.
    rewrite decide_False by (by rewrite Hf').
    rewrite (has_lookup type), Hm'. simpl.
    rewrite (has_lookup (fn_name f')), Hf'. unfold m'. by rewrite lookup_insert_eq.
Qed.

End leistrap_in_use.

(** * The theorems at work *)

Import examples.





(** C8 as stated fails: after [clear], the queries throw as well. *)
Lemma queries_after_clear_throw :
  reply_completion (clear fresh) = Return (r_bool true)
  ∧ reply_completion (hasEvent "n" cleared) = Throw EVENT_DESTROYED
  ∧ reply_completion (eventsList cleared) = Throw EVENT_DESTROYED.
Proof. vm_compute. by split_and!. Qed.

(** C8 as amended, on a fresh bus. *)
Lemma clear_is_final_witness :
  hasEvent "n" cleared = Reply cleared (Throw EVENT_DESTROYED) []
  ∧ handle "n" 1 true true cleared = Reply cleared (Throw EVENT_DESTROYED) [].
Proof.
  destruct (clear_is_final echo prompt safe untagged fresh) as (_ & _ & _ & H1 & _ & _ & H2 & _).
  - split; reflexivity.
  - split; [apply H2 | apply H1].
Defined.

Import leistrap.









(** ** The components at work *)

Import scenarios.


(** X20 at work: on [trio]: [A.data.id = "x"], then [A.data.id = "y"]. *)
Lemma renaming_keeps_the_old_name_witness :
  channels (indexedElementEvent
              (drain (world_of (set_id 0 "y" (drain (world_of (set_id 0 "x" trio))))))) !! "x"
  = Some (Channel 0 true false)
  ∧ indexName <$> heap (drain (world_of (set_id 0 "y" (drain (world_of (set_id 0 "x" trio))))))
                    !! 0
    = Some (Some "y").
Proof.
  destruct (renaming_keeps_the_old_name 0 "x" "y" trio) as (_ & H1 & H2 & _).
  - reflexivity.
  - reflexivity.
  - vm_compute. reflexivity.
  - discriminate.
  - vm_compute. by eexists.
  - split; reflexivity.
  - reflexivity.
  - reflexivity.
  - vm_compute. reflexivity.
  - vm_compute. reflexivity.
  - vm_compute. reflexivity.
  - split; [exact H2 | exact H1].
Defined.



(** X23 at work: on [family]: [G.add(C)], while [C] is a child of [P]. *)
Lemma add_of_a_rendered_component_witness :
  ∃ w',
    add frames 0 (by_object 2) family = done w' 0
    ∧ parent <$> heap w' !! 2 = Some (Some 0)
    ∧ content <$> heap w' !! 0 = Some [1; 2]
    ∧ contentMap <$> heap w' !! 1 = contentMap <$> heap family !! 1.
Proof.
  edestruct (add_of_a_rendered_component frames 0 2 family) as (w' & H1 & H2 & H3 & H4 & _).
  - vm_compute. lia.
  - discriminate.
  - vm_compute. reflexivity.
  - vm_compute. reflexivity.
  - vm_compute. reflexivity.
  - vm_compute. reflexivity.
  - vm_compute. reflexivity.
  - vm_compute. reflexivity.
  - unfold ref in *. exists w'. split_and!; [exact H1 | | by rewrite H3 |].
    + apply (f_equal (fmap parent)) in H2. rewrite <- option_fmap_compose in H2. exact H2.
    + assert (1 ≠ 0) as H10 by discriminate. assert (1 ≠ 2) as H12 by discriminate.
      pose proof (f_equal (fmap contentMap) (H4 1 H10 H12)) as H5.
      rewrite <- !option_fmap_compose in H5. exact H5.
Defined.





(** X28 at work: on [trio]: [A.addEvent("click", shown)] twice. *)
Lemma addEvent_default_name_witness :
  ∃ w',
    addEvent 0 "click" (Some shown) None false "r4nd0m" trio = done w' 0
    ∧ addEvent 0 "click" (Some shown) None false "r4nd0m" w' = threw w' UniqueType.
Proof.
  edestruct (addEvent_default_name 0 "click" shown false "r4nd0m" trio) as (w' & cb & H1 & _ & _ & H2).
  - vm_compute. reflexivity.
  - reflexivity.
  - reflexivity.
  - vm_compute. reflexivity.
  - discriminate.
  - vm_compute. reflexivity.
  - exists w'. split; [exact H1 | by apply H2].
Defined.
